(** * PyInvaders: a shallow embedding of [invaders.py] and its specification

    The program is a single Python file built on pygame.  Python integers are
    unbounded, so every coordinate and speed is a [Z].  Python objects have an
    identity, and [list.remove] finds its argument by that identity (none of
    the classes defines [__eq__]); every [Alien] and [Bullet] therefore
    carries the identity it was allocated with, and [Game] carries the
    allocation counter.  The two nested [for] loops of [Game.update_logic]
    remove from the very lists they iterate over, so they are embedded as
    CPython runs them: an index into the live list, re-read at every step.

    Two things the embedding leaves to its users.  pygame keeps rectangle
    and blit coordinates in machine integers: a rectangle whose [x] or [y]
    does not fit a C int makes [rect.x = ...] raise TypeError, its right
    and bottom edge wrap around, and [blit] raises TypeError beyond 64
    bits.  Here coordinates are unbounded and these calls always return,
    so the embedding follows the program only while the coordinates fit.
    And a list holds records, one per entry: the embedding follows the
    program only for lists of distinct objects ([wf] below).  A theorem
    that says what a tick or a run returns is to be read of runs in which
    pygame accepts every coordinate; where a theorem excludes an exception
    outright, it is the ValueError of [list.remove], which does not depend
    on coordinates. *)

From Stdlib Require Import ZArith Bool String List Permutation Lia.
Import ListNotations.
Open Scope Z_scope.

(** ** Results of fallible code *)

(** The one exception the program can raise on its own:
    [list.remove(x)] when [x] is not in the list.  (The TypeError pygame
    raises for numbers that do not fit its integers is not embedded.) *)
Inductive exn : Type := ValueError.

(** [Done a]: the code returned [a].  [Raised e]: it raised [e].
    [OutOfFuel]: the loop budget of the embedding ran out (shown below never
    to happen for the budgets [update_logic] hands out). *)
Inductive outcome (A : Type) : Type :=
| Done (a : A)
| Raised (e : exn)
| OutOfFuel.
Arguments Done {A} a.
Arguments Raised {A} e.
Arguments OutOfFuel {A}.

Definition bind {A B : Type} (c : outcome A) (k : A -> outcome B) : outcome B :=
  match c with
  | Done a => k a
  | Raised e => Raised e
  | OutOfFuel => OutOfFuel
  end.

Notation "x <- c ;; k" := (bind c (fun x => k))
  (at level 61, c at next level, right associativity).

(** Python's [list.remove(x)]: delete the first item equal to [x], raise
    [ValueError] when there is none.  [same] is the equality of the items. *)
Fixpoint list_remove {A : Type} (same : A -> A -> bool) (x : A) (l : list A)
  : outcome (list A) :=
  match l with
  | [] => Raised ValueError
  | item :: rest =>
      if same item x then Done rest
      else rest' <- list_remove same x rest ;; Done (item :: rest')
  end.

(** ** The part of pygame the game touches *)

(** A loaded image: the game only ever reads its size (through [get_rect])
    and hands it back to [blit]. *)
Record Surface : Type := { width : Z; height : Z }.

(** [pygame.image.load]: what it returns depends on the asset files, which
    are not part of the program. *)
Record pygame : Type := { image_load : string -> Surface }.

Record Rect : Type := { left : Z; top : Z; w : Z; h : Z }.

(** [surface.get_rect()]: the rectangle of the image, at the origin. *)
Definition get_rect (s : Surface) : Rect :=
  {| left := 0; top := 0; w := width s; h := height s |}.

Definition set_left (r : Rect) (v : Z) : Rect :=
  {| left := v; top := top r; w := w r; h := h r |}.
Definition set_top (r : Rect) (v : Z) : Rect :=
  {| left := left r; top := v; w := w r; h := h r |}.

(** [Rect.colliderect] of pygame 2: rectangles of zero width or height
    collide with nothing; otherwise the x ranges and the y ranges must both
    overlap in more than an edge.  pygame keeps the four numbers in C ints;
    here they are unbounded like the Python integers they are set from. *)
Definition colliderect (A B : Rect) : bool :=
  if (w A =? 0) || (h A =? 0) || (w B =? 0) || (h B =? 0) then false
  else (Z.min (left A) (left A + w A) <? Z.max (left B) (left B + w B))
    && (Z.min (top A) (top A + h A) <? Z.max (top B) (top B + h B))
    && (Z.max (left A + w A) (left A) >? Z.min (left B) (left B + w B))
    && (Z.max (top A + h A) (top A) >? Z.min (top B) (top B + h B)).

(** Keys and events, as far as the program tells them apart. *)
Inductive Key : Type :=
| K_LEFT | K_RIGHT | K_SPACE | K_ESCAPE
| K_other (code : Z).

Inductive Event : Type :=
| KEYDOWN (key : Key)
| KEYUP (key : Key)
| QUIT
| OtherEvent (type : Z).

(** Calls the program makes into pygame, in the order it makes them. *)
Inductive Call : Type :=
| ClockTick (fps : Z)
| EventGet
| Blit (image : Surface) (x y : Z)
| Flip
| ImageLoad (name : string)
| PygameQuit.

(** ** class Player *)
Module Player.

Record t : Type := {
  x : Z;
  y : Z;
  x_vel : Z;
  y_vel : Z;
  _image : Surface
}.

Definition set_x (self : t) (v : Z) : t :=
  {| x := v; y := y self; x_vel := x_vel self; y_vel := y_vel self;
     _image := _image self |}.
Definition set_y (self : t) (v : Z) : t :=
  {| x := x self; y := v; x_vel := x_vel self; y_vel := y_vel self;
     _image := _image self |}.
Definition set_x_vel (self : t) (v : Z) : t :=
  {| x := x self; y := y self; x_vel := v; y_vel := y_vel self;
     _image := _image self |}.

Definition init (pg : pygame) : t :=
  {| x := 100; y := 500; x_vel := 0; y_vel := 0;
     _image := image_load pg "UFO.png" |}.

Definition draw (self : t) : Call := Blit (_image self) (x self) (y self).

(** The body of [for event in event_list] in [Player.update]. *)
Definition on_event (self : t) (event : Event) : t :=
  let self :=
    match event with
    | KEYDOWN key =>
        let self :=
          match key with
          | K_LEFT => set_x_vel self (x_vel self - 10)
          | _ => self
          end in
        match key with
        | K_RIGHT => set_x_vel self (x_vel self + 10)
        | _ => self
        end
    | _ => self
    end in
  match event with
  | KEYUP key =>
      let self :=
        match key with
        | K_LEFT => set_x_vel self (x_vel self + 10)
        | _ => self
        end in
      match key with
      | K_RIGHT => set_x_vel self (x_vel self - 10)
      | _ => self
      end
  | _ => self
  end.

Definition update (self : t) (event_list : list Event) : t :=
  let self := fold_left on_event event_list self in
  let self := set_x self (x self + x_vel self) in
  set_y self (y self + y_vel self).

End Player.

(** ** class Alien *)
Module Alien.

Record t : Type := {
  id : nat;
  x : Z;
  y : Z;
  speed : Z;
  left_limit : Z;
  right_limit : Z;
  _image : Surface
}.

Definition set_x (self : t) (v : Z) : t :=
  {| id := id self; x := v; y := y self; speed := speed self;
     left_limit := left_limit self; right_limit := right_limit self;
     _image := _image self |}.
Definition set_y (self : t) (v : Z) : t :=
  {| id := id self; x := x self; y := v; speed := speed self;
     left_limit := left_limit self; right_limit := right_limit self;
     _image := _image self |}.
Definition set_speed (self : t) (v : Z) : t :=
  {| id := id self; x := x self; y := y self; speed := v;
     left_limit := left_limit self; right_limit := right_limit self;
     _image := _image self |}.

Definition init (pg : pygame) (fresh : nat) (start_x start_y speed : Z) : t :=
  {| id := fresh; x := start_x; y := start_y; speed := speed;
     left_limit := 50; right_limit := 500;
     _image := image_load pg "Alien.png" |}.

(** Python's [is] on two aliens. *)
Definition same (a b : t) : bool := Nat.eqb (id a) (id b).

Definition draw (self : t) : Call := Blit (_image self) (x self) (y self).

Definition update (self : t) (event_list : list Event) : t :=
  let self := set_x self (x self + speed self) in
  if (x self <? left_limit self) || (x self >? right_limit self) then
    let self := set_speed self (speed self * -1) in
    set_y self (y self + 10)
  else self.

(** The rectangle of the image at the current position, for [x] and
    [y] that fit a C int (beyond that the assignments raise TypeError). *)
Definition get_rectangle (self : t) : Rect :=
  let rect := get_rect (_image self) in
  let rect := set_left rect (x self) in
  set_top rect (y self).

End Alien.

(** ** class Bullet *)
Module Bullet.

Record t : Type := {
  id : nat;
  x : Z;
  y : Z;
  velocity : Z;
  _image : Surface
}.

Definition set_y (self : t) (v : Z) : t :=
  {| id := id self; x := x self; y := v; velocity := velocity self;
     _image := _image self |}.

Definition init (pg : pygame) (fresh : nat) (x y : Z) : t :=
  {| id := fresh; x := x; y := y; velocity := 10;
     _image := image_load pg "Bullet.png" |}.

(** Python's [is] on two bullets. *)
Definition same (a b : t) : bool := Nat.eqb (id a) (id b).

Definition draw (self : t) : Call := Blit (_image self) (x self) (y self).

Definition update (self : t) (event_list : list Event) : t :=
  set_y self (y self - velocity self).

(** The rectangle of the image at the current position, for [x] and
    [y] that fit a C int (beyond that the assignments raise TypeError). *)
Definition get_rectangle (self : t) : Rect :=
  let rect := get_rect (_image self) in
  let rect := set_left rect (x self) in
  set_top rect (y self).

End Bullet.

(** ** class Game *)
Module Game.

(** [alien_list] and [bullet_list] are Python lists of objects; [next_id]
    is the identity the next allocated object gets. *)
Record t : Type := {
  player : Player.t;
  alien_list : list Alien.t;
  bullet_list : list Bullet.t;
  background : Surface;
  next_id : nat
}.

Definition set_player (self : t) (v : Player.t) : t :=
  {| player := v; alien_list := alien_list self;
     bullet_list := bullet_list self; background := background self;
     next_id := next_id self |}.
Definition set_alien_list (self : t) (v : list Alien.t) : t :=
  {| player := player self; alien_list := v;
     bullet_list := bullet_list self; background := background self;
     next_id := next_id self |}.
Definition set_bullet_list (self : t) (v : list Bullet.t) : t :=
  {| player := player self; alien_list := alien_list self;
     bullet_list := v; background := background self;
     next_id := next_id self |}.

Definition SCREEN_WIDTH : Z := 600.
Definition SCREEN_HEIGHT : Z := 600.

(** [pygame.transform.scale]. *)
Definition transform_scale (s : Surface) (size : Z * Z) : Surface :=
  {| width := fst size; height := snd size |}.

(** [Game.__init__]: one player, one alien at (100, 100) with speed 5,
    no bullet. *)
Definition init (pg : pygame) : t :=
  {| player := Player.init pg;
     alien_list := [] ++ [Alien.init pg 0 100 100 5];
     bullet_list := [];
     background :=
       transform_scale (image_load pg "back.png") (SCREEN_WIDTH, SCREEN_WIDTH);
     next_id := 1 |}.

(** The calls of one render pass, for coordinates [blit] accepts. *)
Definition update_display (self : t) : list Call :=
  [Blit (background self) 0 0]
  ++ [Player.draw (player self)]
  ++ map Alien.draw (alien_list self)
  ++ map Bullet.draw (bullet_list self)
  ++ [Flip].

(** [for alien in self.alien_list:] of the collision check, resumed at
    index [j] of the list as it is now, for the bullet bound by the outer
    loop.  The iterator stops when [j] is past the end of the list. *)
Fixpoint for_alien (fuel : nat) (bullet : Bullet.t) (j : nat) (self : t)
  : outcome t :=
  match fuel with
  | O => OutOfFuel
  | S fuel =>
      match nth_error (alien_list self) j with
      | None => Done self
      | Some alien =>
          if colliderect (Bullet.get_rectangle bullet)
                         (Alien.get_rectangle alien)
          then
            bullets <- list_remove Bullet.same bullet (bullet_list self) ;;
            let self := set_bullet_list self bullets in
            aliens <- list_remove Alien.same alien (alien_list self) ;;
            let self := set_alien_list self aliens in
            for_alien fuel bullet (S j) self
          else for_alien fuel bullet (S j) self
      end
  end.

(** [for bullet in self.bullet_list:], resumed at index [i].  Every inner
    loop gets one step more than the aliens it can visit. *)
Fixpoint for_bullet (fuel : nat) (i : nat) (self : t) : outcome t :=
  match fuel with
  | O => OutOfFuel
  | S fuel =>
      match nth_error (bullet_list self) i with
      | None => Done self
      | Some bullet =>
          self <- for_alien (S (length (alien_list self))) bullet 0 self ;;
          for_bullet fuel (S i) self
      end
  end.

(** The collision check of [update_logic] (its second half). *)
Definition check_collisions (self : t) : outcome t :=
  for_bullet (S (length (bullet_list self))) 0 self.

(** The three update loops do not touch the lists, only the objects in
    them, each object once (the objects of a list are distinct); then
    comes the collision check. *)
Definition update_logic (self : t) (event_list : list Event) : outcome t :=
  let self := set_player self (Player.update (player self) event_list) in
  let self :=
    set_alien_list self
      (map (fun alien => Alien.update alien event_list) (alien_list self)) in
  let self :=
    set_bullet_list self
      (map (fun bullet => Bullet.update bullet event_list)
         (bullet_list self)) in
  check_collisions self.

Section Loop.
Variable pg : pygame.

(** [self.bullet_list.append(Bullet(self.player.x, 500))]. *)
Definition spawn (self : t) : t :=
  {| player := player self; alien_list := alien_list self;
     bullet_list :=
       bullet_list self
       ++ [Bullet.init pg (next_id self) (Player.x (player self)) 500];
     background := background self;
     next_id := S (next_id self) |}.

(** The body of [for event in event_list] in [main_loop]; the state is
    the game, the local [running] and the calls made so far. *)
Definition on_event (st : t * bool * list Call) (event : Event)
  : t * bool * list Call :=
  let '(self, running, calls) := st in
  let '(self, calls) :=
    match event with
    | KEYDOWN key =>
        match key with
        | K_SPACE => (spawn self, calls ++ [ImageLoad "Bullet.png"])
        | _ => (self, calls)
        end
    | _ => (self, calls)
    end in
  let running :=
    match event with
    | KEYUP key =>
        match key with
        | K_ESCAPE => false
        | _ => running
        end
    | QUIT => false
    | _ => running
    end in
  (self, running, calls).

(** One pass through the body of [while running], entered with
    [running = True]; [event_list] is what [pygame.event.get()] returns. *)
Definition iteration (self : t) (event_list : list Event)
  : outcome (t * bool * list Call) :=
  let calls := [ClockTick 60; EventGet] in
  self <- update_logic self event_list ;;
  let calls := calls ++ update_display self in
  Done (fold_left on_event event_list (self, true, calls)).

(** How far [main_loop] got on the event batches it was given. *)
Inductive run : Type :=
| Stopped (self : t) (calls : list Call)
| Running (self : t) (calls : list Call)
| Crashed (e : exn) (calls : list Call)
| Stuck.

(** [main_loop], fed the successive results of [pygame.event.get()].
    [Stopped]: the loop was left and [pygame.quit()] called.  [Running]:
    [running] is still true and the next batch has not arrived.
    [Crashed]: the exception left [main_loop]. *)
Fixpoint main_loop_from (self : t) (calls : list Call)
  (input : list (list Event)) : run :=
  match input with
  | [] => Running self calls
  | event_list :: input =>
      match iteration self event_list with
      | Done (self, running, out) =>
          if running then main_loop_from self (calls ++ out) input
          else Stopped self (calls ++ out ++ [PygameQuit])
      | Raised e => Crashed e (calls ++ [ClockTick 60; EventGet])
      | OutOfFuel => Stuck
      end
  end.

Definition main_loop (self : t) (input : list (list Event)) : run :=
  main_loop_from self [] input.

End Loop.

End Game.

(** ** Vocabulary of the properties *)

(** Removing the bullet and the alien of one hit. *)
Definition hit (g : Game.t) (bl : list Bullet.t) (al : list Alien.t) : Game.t :=
  Game.set_alien_list (Game.set_bullet_list g bl) al.

(** The fire action: a key-down of the space bar. *)
Definition is_fire (event : Event) : bool :=
  match event with
  | KEYDOWN K_SPACE => true
  | _ => false
  end.

(** The quit signals: a key-up of escape, or the window's QUIT. *)
Definition is_quit (event : Event) : bool :=
  match event with
  | KEYUP K_ESCAPE => true
  | QUIT => true
  | _ => false
  end.

Definition fires (event_list : list Event) : nat :=
  length (filter is_fire event_list).

Definition quits (event_list : list Event) : bool :=
  existsb is_quit event_list.

(** Events of the LEFT key and of the RIGHT key. *)
Definition is_left (event : Event) : bool :=
  match event with
  | KEYDOWN K_LEFT | KEYUP K_LEFT => true
  | _ => false
  end.

Definition is_right (event : Event) : bool :=
  match event with
  | KEYDOWN K_RIGHT | KEYUP K_RIGHT => true
  | _ => false
  end.

(** What one event adds to the player's horizontal velocity. *)
Definition delta (event : Event) : Z :=
  match event with
  | KEYDOWN K_LEFT => -10
  | KEYDOWN K_RIGHT => 10
  | KEYUP K_LEFT => 10
  | KEYUP K_RIGHT => -10
  | _ => 0
  end.

Definition sum_delta (event_list : list Event) : Z :=
  fold_right Z.add 0 (map delta event_list).

(** Where a player at [x] with velocity [v] is after the batches: each
    tick first adds the batch's deltas to the velocity, then the velocity
    to the position. *)
Fixpoint travel (x v : Z) (batches : list (list Event)) : Z :=
  match batches with
  | [] => x
  | event_list :: batches =>
      let v := v + sum_delta event_list in
      travel (x + v) v batches
  end.

(** [update_logic] called once per batch. *)
Fixpoint update_logic_n (g : Game.t) (batches : list (list Event))
  : outcome Game.t :=
  match batches with
  | [] => Done g
  | event_list :: batches =>
      g <- Game.update_logic g event_list ;; update_logic_n g batches
  end.

(** The objects of each list are distinct, every bullet was allocated
    before [next_id] and by [Bullet.__init__] (which sets velocity 10). *)
Definition wf (g : Game.t) : Prop :=
  NoDup (map Alien.id (Game.alien_list g)) /\
  NoDup (map Bullet.id (Game.bullet_list g)) /\
  Forall (fun b => (Bullet.id b < Game.next_id g)%nat /\ Bullet.velocity b = 10)
    (Game.bullet_list g).

(** Bullet [b] overlaps no alien in the collision pass of any tick of the
    run of [main_loop] on [input]. *)
Fixpoint misses (pg : pygame) (g : Game.t) (b : Bullet.t)
  (input : list (list Event)) : Prop :=
  match input with
  | [] => True
  | event_list :: input =>
      (forall a, In a (Game.alien_list g) ->
         colliderect (Bullet.get_rectangle (Bullet.update b event_list))
                     (Alien.get_rectangle (Alien.update a event_list))
           = false) /\
      match Game.iteration pg g event_list with
      | Done (g', true, _) => misses pg g' (Bullet.update b event_list) input
      | _ => True
      end
  end.

(** The bullets a tick appends: one per fire key-down, all at the
    player's position and row 500. *)
Definition spawned (pg : pygame) (g : Game.t) (n : nat) : list Bullet.t :=
  map (fun k => Bullet.init pg (Game.next_id g + k)
                  (Player.x (Game.player g)) 500)
      (seq 0 n).

(** Two objects that agree on every field; their identities may differ. *)
Definition alien_twin (a1 a2 : Alien.t) : Prop :=
  Alien.x a1 = Alien.x a2 /\ Alien.y a1 = Alien.y a2 /\
  Alien.speed a1 = Alien.speed a2 /\
  Alien.left_limit a1 = Alien.left_limit a2 /\
  Alien.right_limit a1 = Alien.right_limit a2 /\
  Alien._image a1 = Alien._image a2.

Definition bullet_twin (b1 b2 : Bullet.t) : Prop :=
  Bullet.x b1 = Bullet.x b2 /\ Bullet.y b1 = Bullet.y b2 /\
  Bullet.velocity b1 = Bullet.velocity b2 /\
  Bullet._image b1 = Bullet._image b2.

(** Two game states of two runs that are equal as far as a program can
    tell: the same player, and lists that agree object by object.  What
    may differ is where the objects live (their identities). *)
Definition twin (g1 g2 : Game.t) : Prop :=
  wf g1 /\ wf g2 /\
  Game.player g1 = Game.player g2 /\
  Game.background g1 = Game.background g2 /\
  Forall2 alien_twin (Game.alien_list g1) (Game.alien_list g2) /\
  Forall2 bullet_twin (Game.bullet_list g1) (Game.bullet_list g2).

(** The same, inside the collision pass (no allocation happens there). *)
Definition pass_twin (g1 g2 : Game.t) : Prop :=
  Game.player g1 = Game.player g2 /\
  Game.background g1 = Game.background g2 /\
  Forall2 alien_twin (Game.alien_list g1) (Game.alien_list g2) /\
  Forall2 bullet_twin (Game.bullet_list g1) (Game.bullet_list g2) /\
  NoDup (map Alien.id (Game.alien_list g1)) /\
  NoDup (map Alien.id (Game.alien_list g2)) /\
  NoDup (map Bullet.id (Game.bullet_list g1)) /\
  NoDup (map Bullet.id (Game.bullet_list g2)).

(** Two results of the same kind, related when both are values. *)
Definition outcome_rel {A : Type} (R : A -> A -> Prop) (o1 o2 : outcome A)
  : Prop :=
  match o1, o2 with
  | Done a1, Done a2 => R a1 a2
  | Raised e1, Raised e2 => e1 = e2
  | OutOfFuel, OutOfFuel => True
  | _, _ => False
  end.

Definition tick_twin (r1 r2 : Game.t * bool * list Call) : Prop :=
  let '(g1, running1, calls1) := r1 in
  let '(g2, running2, calls2) := r2 in
  twin g1 g2 /\ running1 = running2 /\ calls1 = calls2.

Definition run_twin (r1 r2 : Game.run) : Prop :=
  match r1, r2 with
  | Game.Stopped g1 c1, Game.Stopped g2 c2 => twin g1 g2 /\ c1 = c2
  | Game.Running g1 c1, Game.Running g2 c2 => twin g1 g2 /\ c1 = c2
  | Game.Crashed e1 c1, Game.Crashed e2 c2 => e1 = e2 /\ c1 = c2
  | Game.Stuck, Game.Stuck => True
  | _, _ => False
  end.

(** The state [update_logic] hands to its collision check: the player,
    every alien and every bullet updated, the lists as they were. *)
Definition moved (g : Game.t) (event_list : list Event) : Game.t :=
  {| Game.player := Player.update (Game.player g) event_list;
     Game.alien_list :=
       map (fun alien => Alien.update alien event_list) (Game.alien_list g);
     Game.bullet_list :=
       map (fun bullet => Bullet.update bullet event_list)
           (Game.bullet_list g);
     Game.background := Game.background g;
     Game.next_id := Game.next_id g |}.

(** Whether bullet [b] and alien [a] overlap. *)
Definition overlap (b : Bullet.t) (a : Alien.t) : bool :=
  colliderect (Bullet.get_rectangle b) (Alien.get_rectangle a).

(** The fire key-downs of a whole input. *)
Definition total_fires (input : list (list Event)) : nat :=
  fires (concat input).

(** The state a tick leaves when its collision pass left [t]. *)
Definition after_events (pg : pygame) (t : Game.t)
  (event_list : list Event) : Game.t :=
  {| Game.player := Game.player t;
     Game.alien_list := Game.alien_list t;
     Game.bullet_list :=
       Game.bullet_list t ++ spawned pg t (fires event_list);
     Game.background := Game.background t;
     Game.next_id := Game.next_id t + fires event_list |}.

(** An alien that is inside its limits, or has just stepped over one of
    them by at most its speed and already turned back. *)
Definition near_limits (a : Alien.t) : Prop :=
  let s := Z.abs (Alien.speed a) in
  (Alien.left_limit a <= Alien.x a <= Alien.right_limit a) \/
  (Alien.right_limit a < Alien.x a <= Alien.right_limit a + s /\
   Alien.speed a <= 0) \/
  (Alien.left_limit a - s <= Alien.x a < Alien.left_limit a /\
   0 <= Alien.speed a).



(** The reading of the tick order in which the spawn comes before the
    render: every bullet the tick adds after its collision pass is drawn
    by the tick's render. *)
Definition drawn_when_spawned (pg : pygame) (g : Game.t)
  (event_list : list Event) : Prop :=
  forall g1 g' running calls,
    Game.update_logic g event_list = Done g1 ->
    Game.iteration pg g event_list = Done (g', running, calls) ->
    forall b, In b (Game.bullet_list g') -> ~ In b (Game.bullet_list g1) ->
              In (Bullet.draw b) calls.

(** Sample assets and states the examples run on. *)
Definition pg0 : pygame :=
  {| image_load := fun name =>
       if String.eqb name "Bullet.png" then {| width := 8; height := 16 |}
       else if String.eqb name "Alien.png" then {| width := 32; height := 32 |}
       else if String.eqb name "UFO.png" then {| width := 64; height := 32 |}
       else {| width := 800; height := 600 |} |}.

Definition img0 : Surface := {| width := 32; height := 32 |}.

Definition alien_at (i : nat) (x y : Z) : Alien.t := Alien.init pg0 i x y 5.

Definition bullet_at (i : nat) (x y : Z) : Bullet.t := Bullet.init pg0 i x y.

Definition game_of (al : list Alien.t) (bl : list Bullet.t) (n : nat)
  : Game.t :=
  {| Game.player := Player.init pg0; Game.alien_list := al;
     Game.bullet_list := bl; Game.background := img0; Game.next_id := n |}.

(** Three aliens in one place and a bullet that reaches them this tick. *)
Definition three_aliens : Game.t :=
  game_of [alien_at 0 100 100; alien_at 1 100 100; alien_at 2 100 100]
          [bullet_at 3 100 110] 4.

(** One bullet and one alien, both at (100, 500). *)
Definition face_to_face : Game.t :=
  game_of [alien_at 0 100 500] [bullet_at 1 100 500] 2.


(** A bullet far above the only alien. *)
Definition stray_bullet : Bullet.t := bullet_at 1 300 50.

Definition with_stray : Game.t :=
  game_of [alien_at 0 100 100] [stray_bullet] 2.


(** The same position as [with_stray], its objects living elsewhere. *)
Definition with_stray_elsewhere : Game.t :=
  game_of [alien_at 7 100 100] [bullet_at 5 300 50] 9.

(** ** Python's [list.remove] *)
Section ListRemove.
Context {A : Type} (same : A -> A -> bool).

(** A successful [remove] took out the first item equal to [x]. *)
Lemma list_remove_split (x : A) (l l' : list A) :
  list_remove same x l = Done l' ->
  exists pre item post,
    l = pre ++ item :: post /\ l' = pre ++ post /\
    same item x = true /\ Forall (fun z => same z x = false) pre.
Proof.
  revert l'. induction l as [|a l IH]; intros l' H; simpl in H.
  - discriminate.
  - destruct (same a x) eqn:E.
    + injection H as <-. exists [], a, l. repeat split; auto.
    + destruct (list_remove same x l) as [r| |] eqn:R; simpl in H;
        try discriminate.
      injection H as <-.
      destruct (IH r eq_refl) as (pre & item & post & -> & -> & Hs & Hp).
      exists (a :: pre), item, post. repeat split; auto.
Qed.

Lemma list_remove_fuel (x : A) (l : list A) :
  list_remove same x l <> OutOfFuel.
Proof.
  induction l as [|a l IH]; simpl; [discriminate|].
  destruct (same a x); [discriminate|].
  destruct (list_remove same x l); simpl; congruence.
Qed.

Lemma list_remove_found (x : A) (l : list A) :
  (exists item, In item l /\ same item x = true) ->
  exists l', list_remove same x l = Done l'.
Proof.
  induction l as [|a l IH]; intros (item & Hin & Hs); simpl.
  - destruct Hin.
  - destruct (same a x) eqn:E; [eauto|].
    destruct Hin as [->|Hin]; [congruence|].
    destruct IH as (r & ->); eauto. simpl. eauto.
Qed.

Lemma list_remove_absent (x : A) (l : list A) :
  Forall (fun z => same z x = false) l ->
  list_remove same x l = Raised ValueError.
Proof.
  induction 1 as [|a l Ha _ IH]; simpl; [reflexivity|].
  now rewrite Ha, IH.
Qed.

Lemma list_remove_length (x : A) (l l' : list A) :
  list_remove same x l = Done l' -> length l = S (length l').
Proof.
  intros H. destruct (list_remove_split _ _ _ H) as (pre & i & post & -> & -> & _).
  rewrite !length_app. simpl. lia.
Qed.

Lemma list_remove_incl (x : A) (l l' : list A) (z : A) :
  list_remove same x l = Done l' -> In z l' -> In z l.
Proof.
  intros H. destruct (list_remove_split _ _ _ H) as (pre & i & post & -> & -> & _).
  rewrite !in_app_iff. simpl. tauto.
Qed.

Lemma list_remove_keeps (x : A) (l l' : list A) (z : A) :
  list_remove same x l = Done l' -> In z l -> same z x = false -> In z l'.
Proof.
  intros H. destruct (list_remove_split _ _ _ H) as (pre & i & post & -> & -> & Hs & _).
  rewrite !in_app_iff. simpl. intros [?|[->|?]] Hz; auto. congruence.
Qed.

Lemma list_remove_NoDup {B : Type} (f : A -> B) (x : A) (l l' : list A) :
  list_remove same x l = Done l' -> NoDup (map f l) -> NoDup (map f l').
Proof.
  intros H. destruct (list_remove_split _ _ _ H) as (pre & i & post & -> & -> & _).
  rewrite !map_app. simpl. apply NoDup_remove_1.
Qed.

Lemma list_remove_Forall (P : A -> Prop) (x : A) (l l' : list A) :
  list_remove same x l = Done l' -> Forall P l -> Forall P l'.
Proof.
  intros H Hl. rewrite Forall_forall in *.
  intros z Hz. apply Hl. eapply list_remove_incl; eauto.
Qed.

End ListRemove.

(** ** The collision loops *)

(** Unfolding equations of the two loops. *)
Lemma for_alien_S fuel bullet j g :
  Game.for_alien (S fuel) bullet j g =
  match nth_error (Game.alien_list g) j with
  | None => Done g
  | Some alien =>
      if colliderect (Bullet.get_rectangle bullet) (Alien.get_rectangle alien)
      then
        bullets <- list_remove Bullet.same bullet (Game.bullet_list g) ;;
        aliens <- list_remove Alien.same alien (Game.alien_list g) ;;
        Game.for_alien fuel bullet (S j) (hit g bullets aliens)
      else Game.for_alien fuel bullet (S j) g
  end.
Proof. reflexivity. Qed.

Lemma for_bullet_S fuel i g :
  Game.for_bullet (S fuel) i g =
  match nth_error (Game.bullet_list g) i with
  | None => Done g
  | Some bullet =>
      self <- Game.for_alien (S (length (Game.alien_list g))) bullet 0 g ;;
      Game.for_bullet fuel (S i) self
  end.
Proof. reflexivity. Qed.

(** [update_logic]: the three update loops, then the collision loops. *)
Lemma update_logic_eq g event_list :
  Game.update_logic g event_list
  = Game.for_bullet (S (length (Game.bullet_list g))) 0
      {| Game.player := Player.update (Game.player g) event_list;
         Game.alien_list :=
           map (fun alien => Alien.update alien event_list)
               (Game.alien_list g);
         Game.bullet_list :=
           map (fun bullet => Bullet.update bullet event_list)
               (Game.bullet_list g);
         Game.background := Game.background g;
         Game.next_id := Game.next_id g |}.
Proof.
  unfold Game.update_logic, Game.check_collisions, Game.set_bullet_list,
    Game.set_alien_list, Game.set_player.
  cbn [Game.player Game.alien_list Game.bullet_list Game.background
       Game.next_id].
  now rewrite length_map.
Qed.

(** Invariant rule of the inner loop: what every hit of [bullet] keeps,
    a finished loop keeps. *)
Lemma for_alien_rule (P : Game.t -> Prop) (bullet : Bullet.t) :
  (forall g alien bl al,
      P g -> In alien (Game.alien_list g) ->
      colliderect (Bullet.get_rectangle bullet) (Alien.get_rectangle alien)
        = true ->
      list_remove Bullet.same bullet (Game.bullet_list g) = Done bl ->
      list_remove Alien.same alien (Game.alien_list g) = Done al ->
      P (hit g bl al)) ->
  forall fuel j g g',
    P g -> Game.for_alien fuel bullet j g = Done g' -> P g'.
Proof.
  intros Hstep. induction fuel as [|fuel IH]; intros j g g' HP H.
  - discriminate.
  - rewrite for_alien_S in H.
    destruct (nth_error (Game.alien_list g) j) as [alien|] eqn:N.
    + destruct (colliderect _ _) eqn:C.
      * destruct (list_remove Bullet.same bullet _) as [bl| |] eqn:RB;
          simpl in H; try discriminate.
        destruct (list_remove Alien.same alien _) as [al| |] eqn:RA;
          simpl in H; try discriminate.
        eapply IH; [|exact H].
        eapply Hstep; eauto using nth_error_In.
      * eapply IH; eauto.
    + now injection H as <-.
Qed.

(** Invariant rule of the outer loop; the bullet of a hit was read from
    the list of some earlier state of the loop. *)
Lemma for_bullet_rule (P : Game.t -> Prop) :
  (forall g0 bullet g alien bl al,
      P g0 -> In bullet (Game.bullet_list g0) ->
      P g -> In alien (Game.alien_list g) ->
      colliderect (Bullet.get_rectangle bullet) (Alien.get_rectangle alien)
        = true ->
      list_remove Bullet.same bullet (Game.bullet_list g) = Done bl ->
      list_remove Alien.same alien (Game.alien_list g) = Done al ->
      P (hit g bl al)) ->
  forall fuel i g g',
    P g -> Game.for_bullet fuel i g = Done g' -> P g'.
Proof.
  intros Hstep. induction fuel as [|fuel IH]; intros i g g' HP H.
  - discriminate.
  - rewrite for_bullet_S in H.
    destruct (nth_error (Game.bullet_list g) i) as [bullet|] eqn:N.
    + destruct (Game.for_alien _ bullet 0 g) as [g1| |] eqn:FA;
        simpl in H; try discriminate.
      eapply IH; [|exact H].
      eapply for_alien_rule; [|exact HP|exact FA].
      intros. eapply (Hstep g bullet); eauto using nth_error_In.
    + now injection H as <-.
Qed.

(** The pass only touches the two lists, and only shortens them. *)
Lemma for_bullet_frame fuel i g g' :
  Game.for_bullet fuel i g = Done g' ->
  Game.player g' = Game.player g /\
  Game.background g' = Game.background g /\
  Game.next_id g' = Game.next_id g /\
  incl (Game.alien_list g') (Game.alien_list g) /\
  incl (Game.bullet_list g') (Game.bullet_list g) /\
  (length (Game.alien_list g') <= length (Game.alien_list g))%nat /\
  (length (Game.bullet_list g') <= length (Game.bullet_list g))%nat.
Proof.
  intros H.
  apply (for_bullet_rule (fun s =>
    Game.player s = Game.player g /\
    Game.background s = Game.background g /\
    Game.next_id s = Game.next_id g /\
    incl (Game.alien_list s) (Game.alien_list g) /\
    incl (Game.bullet_list s) (Game.bullet_list g) /\
    (length (Game.alien_list s) <= length (Game.alien_list g))%nat /\
    (length (Game.bullet_list s) <= length (Game.bullet_list g))%nat))
    in H; auto.
  - intros _ bullet s alien bl al _ _ (Hp & Hb & Hn & Ha & Hbl & La & Lb)
      _ _ RB RA.
    simpl. repeat split; auto.
    + intros z Hz. apply Ha. eapply list_remove_incl; eauto.
    + intros z Hz. apply Hbl. eapply list_remove_incl; eauto.
    + apply list_remove_length in RA. lia.
    + apply list_remove_length in RB. lia.
  - repeat split; auto using incl_refl.
Qed.

Lemma for_alien_shrinks fuel bullet j g g' :
  Game.for_alien fuel bullet j g = Done g' ->
  (length (Game.alien_list g') <= length (Game.alien_list g))%nat /\
  (length (Game.bullet_list g') <= length (Game.bullet_list g))%nat.
Proof.
  intros H.
  apply (for_alien_rule (fun s =>
    (length (Game.alien_list s) <= length (Game.alien_list g))%nat /\
    (length (Game.bullet_list s) <= length (Game.bullet_list g))%nat))
    in H; auto.
  intros s alien bl al (La & Lb) _ _ RB RA. simpl.
  apply list_remove_length in RA, RB. lia.
Qed.

(** The loop budgets are enough: each step moves the index one closer to
    the end of a list that never grows. *)
Lemma for_alien_fuel fuel bullet j g :
  (length (Game.alien_list g) - j < fuel)%nat ->
  Game.for_alien fuel bullet j g <> OutOfFuel.
Proof.
  revert j g. induction fuel as [|fuel IH]; intros j g L; [lia|].
  rewrite for_alien_S.
  destruct (nth_error (Game.alien_list g) j) as [alien|] eqn:N;
    [|discriminate].
  assert (j < length (Game.alien_list g))%nat
    by (apply nth_error_Some; congruence).
  destruct (colliderect _ _).
  - destruct (list_remove Bullet.same bullet _) as [bl| |] eqn:RB; simpl;
      [|discriminate|exact (fun _ => list_remove_fuel _ _ _ RB)].
    destruct (list_remove Alien.same alien _) as [al| |] eqn:RA; simpl;
      [|discriminate|exact (fun _ => list_remove_fuel _ _ _ RA)].
    apply IH. simpl. apply list_remove_length in RA. lia.
  - apply IH. lia.
Qed.

Lemma for_bullet_fuel fuel i g :
  (length (Game.bullet_list g) - i < fuel)%nat ->
  Game.for_bullet fuel i g <> OutOfFuel.
Proof.
  revert i g. induction fuel as [|fuel IH]; intros i g L; [lia|].
  rewrite for_bullet_S.
  destruct (nth_error (Game.bullet_list g) i) as [bullet|] eqn:N;
    [|discriminate].
  assert (i < length (Game.bullet_list g))%nat
    by (apply nth_error_Some; congruence).
  destruct (Game.for_alien _ bullet 0 g) as [g1| |] eqn:FA; simpl.
  - apply IH. apply for_alien_shrinks in FA. lia.
  - discriminate.
  - exfalso. revert FA. apply for_alien_fuel. lia.
Qed.

Lemma check_collisions_fuel g : Game.check_collisions g <> OutOfFuel.
Proof. apply for_bullet_fuel. lia. Qed.

Lemma update_logic_fuel g event_list :
  Game.update_logic g event_list <> OutOfFuel.
Proof. apply check_collisions_fuel. Qed.

(** ** When the removals of the collision pass cannot fail *)

Lemma Bullet_same_refl b : Bullet.same b b = true.
Proof. apply Nat.eqb_refl. Qed.

Lemma Alien_same_refl a : Alien.same a a = true.
Proof. apply Nat.eqb_refl. Qed.

(** With at most two aliens the inner loop is over right after a hit, so
    the bullet is never removed twice. *)
Lemma for_alien_two fuel bullet j g :
  ((exists item, In item (Game.bullet_list g) /\
                 Bullet.same item bullet = true) /\
   (length (Game.alien_list g) <= 2)%nat) \/
  (length (Game.alien_list g) <= j)%nat ->
  (length (Game.alien_list g) - j < fuel)%nat ->
  exists g', Game.for_alien fuel bullet j g = Done g'.
Proof.
  revert j g. induction fuel as [|fuel IH]; intros j g Inv L; [lia|].
  rewrite for_alien_S.
  destruct (nth_error (Game.alien_list g) j) as [alien|] eqn:N; [|eauto].
  assert (Hj : (j < length (Game.alien_list g))%nat)
    by (apply nth_error_Some; congruence).
  destruct Inv as [(Hb & L2)|]; [|lia].
  destruct (colliderect _ _).
  - destruct (list_remove_found Bullet.same _ _ Hb) as (bl & ->). simpl.
    destruct (list_remove_found Alien.same alien (Game.alien_list g))
      as (al & RA).
    { exists alien. split; [eauto using nth_error_In|apply Alien_same_refl]. }
    rewrite RA. simpl. apply list_remove_length in RA.
    apply IH; simpl; [right|]; lia.
  - apply IH; [left; auto|lia].
Qed.

Lemma for_bullet_two fuel i g :
  (length (Game.alien_list g) <= 2)%nat ->
  (length (Game.bullet_list g) - i < fuel)%nat ->
  exists g', Game.for_bullet fuel i g = Done g'.
Proof.
  revert i g. induction fuel as [|fuel IH]; intros i g L2 L; [lia|].
  rewrite for_bullet_S.
  destruct (nth_error (Game.bullet_list g) i) as [bullet|] eqn:N; [|eauto].
  assert (Hi : (i < length (Game.bullet_list g))%nat)
    by (apply nth_error_Some; congruence).
  destruct (for_alien_two (S (length (Game.alien_list g))) bullet 0 g)
    as (g1 & FA).
  { left. split; [|exact L2]. exists bullet.
    split; [eauto using nth_error_In|apply Bullet_same_refl]. }
  { lia. }
  rewrite FA. simpl. apply for_alien_shrinks in FA. apply IH; lia.
Qed.

Lemma update_logic_two g event_list :
  (length (Game.alien_list g) <= 2)%nat ->
  exists g',
    Game.update_logic g event_list = Done g' /\
    (length (Game.alien_list g') <= length (Game.alien_list g))%nat.
Proof.
  intros L2. unfold Game.update_logic, Game.check_collisions.
  match goal with |- context [Game.for_bullet ?f 0 ?s] =>
    destruct (for_bullet_two f 0 s) as (g' & H) end.
  - simpl. now rewrite length_map.
  - lia.
  - exists g'. split; [exact H|].
    apply for_bullet_frame in H. simpl in H. rewrite length_map in H. tauto.
Qed.

(** ** The event loop of [main_loop] *)

Lemma iter_spawn_comm pg n g :
  Nat.iter n (Game.spawn pg) (Game.spawn pg g)
  = Game.spawn pg (Nat.iter n (Game.spawn pg) g).
Proof. induction n; simpl; congruence. Qed.

(** The loop appends one bullet per fire key-down, clears [running] on
    the first quit signal and never sets it again. *)
Lemma fold_on_event pg event_list g running calls :
  fold_left (Game.on_event pg) event_list (g, running, calls)
  = (Nat.iter (fires event_list) (Game.spawn pg) g,
     running && negb (quits event_list),
     calls ++ repeat (ImageLoad "Bullet.png") (fires event_list)).
Proof.
  revert g running calls.
  induction event_list as [|e l IH]; intros g running calls.
  - simpl. now rewrite andb_true_r, app_nil_r.
  - cbn [fold_left].
    destruct e as [[| | | |c]|[| | | |c]| |ty]; cbn [Game.on_event];
      rewrite IH; unfold fires, quits; cbn [filter is_fire existsb is_quit
        length orb negb Nat.iter repeat];
      rewrite ?andb_false_r, ?andb_false_l, ?andb_true_r, ?andb_true_l;
      try reflexivity.
    rewrite iter_spawn_comm, <- app_assoc. reflexivity.
Qed.

Lemma iter_spawn pg n g :
  Nat.iter n (Game.spawn pg) g
  = {| Game.player := Game.player g;
       Game.alien_list := Game.alien_list g;
       Game.bullet_list := Game.bullet_list g ++ spawned pg g n;
       Game.background := Game.background g;
       Game.next_id := Game.next_id g + n |}.
Proof.
  induction n as [|n IH].
  - simpl. unfold spawned. simpl. rewrite app_nil_r, Nat.add_0_r.
    now destruct g.
  - rewrite Nat.iter_succ, IH. unfold Game.spawn, spawned.
    rewrite seq_S, map_app, app_assoc. cbn.
    now rewrite Nat.add_succ_r.
Qed.

(** One pass of the loop body, with the event loop in closed form. *)
Lemma iteration_eq pg g event_list :
  Game.iteration pg g event_list =
  g1 <- Game.update_logic g event_list ;;
  Done ({| Game.player := Game.player g1;
           Game.alien_list := Game.alien_list g1;
           Game.bullet_list :=
             Game.bullet_list g1 ++ spawned pg g1 (fires event_list);
           Game.background := Game.background g1;
           Game.next_id := Game.next_id g1 + fires event_list |},
        negb (quits event_list),
        ([ClockTick 60; EventGet] ++ Game.update_display g1)
          ++ repeat (ImageLoad "Bullet.png") (fires event_list)).
Proof.
  unfold Game.iteration.
  destruct (Game.update_logic g event_list) as [g1| |]; simpl; auto.
  now rewrite fold_on_event, iter_spawn.
Qed.

(** ** Well-formed states *)

Lemma Alien_update_id a event_list :
  Alien.id (Alien.update a event_list) = Alien.id a.
Proof. unfold Alien.update. simpl. now destruct (_ || _). Qed.

Lemma Bullet_update_eq b event_list :
  Bullet.update b event_list
  = Bullet.set_y b (Bullet.y b - Bullet.velocity b).
Proof. reflexivity. Qed.

Lemma NoDup_map_inj {A B : Type} (f : A -> B) (l : list A) (x y : A) :
  NoDup (map f l) -> In x l -> In y l -> f x = f y -> x = y.
Proof.
  induction l as [|a l IH]; simpl; intros ND Hx Hy E; [tauto|].
  inversion ND as [|? ? Hn ND']; subst.
  destruct Hx as [->|Hx], Hy as [->|Hy]; auto.
  - exfalso. apply Hn. rewrite E. now apply in_map.
  - exfalso. apply Hn. rewrite <- E. now apply in_map.
Qed.

Lemma wf_init pg : wf (Game.init pg).
Proof.
  unfold wf. simpl. repeat split; repeat constructor. intros [].
Qed.

Lemma wf_check_collisions g g' :
  wf g -> Game.check_collisions g = Done g' -> wf g'.
Proof.
  intros W H. unfold Game.check_collisions in H.
  apply (for_bullet_rule wf) in H; auto.
  intros _ bullet s alien bl al _ _ (Wa & Wb & Wf) _ _ RB RA.
  unfold wf. simpl. repeat split.
  - eapply list_remove_NoDup; eauto.
  - eapply list_remove_NoDup; eauto.
  - eapply list_remove_Forall; eauto.
Qed.

Lemma wf_update_logic g event_list g' :
  wf g -> Game.update_logic g event_list = Done g' -> wf g'.
Proof.
  intros (Wa & Wb & Wf). apply wf_check_collisions.
  unfold wf. simpl. rewrite !map_map. repeat split.
  - erewrite map_ext; [exact Wa|]. intros a. apply Alien_update_id.
  - exact Wb.
  - rewrite Forall_forall in *. intros b' Hb'.
    apply in_map_iff in Hb' as (b & <- & Hb). exact (Wf b Hb).
Qed.

Lemma wf_spawn pg g : wf g -> wf (Game.spawn pg g).
Proof.
  intros (Wa & Wb & Wf). unfold wf. simpl. repeat split; auto.
  - rewrite map_app. simpl. apply NoDup_app; auto.
    + repeat constructor. intros [].
    + intros i Hi [<-|[]]. apply in_map_iff in Hi as (b & E & Hb).
      rewrite Forall_forall in Wf. destruct (Wf b Hb). lia.
  - apply Forall_app. split.
    + eapply Forall_impl; [|exact Wf]. simpl. intros b [? ?]. split; auto.
    + repeat constructor.
Qed.

Lemma wf_iteration pg g event_list g' running calls :
  wf g -> Game.iteration pg g event_list = Done (g', running, calls) ->
  wf g'.
Proof.
  intros W H. unfold Game.iteration in H.
  destruct (Game.update_logic g event_list) as [g1| |] eqn:U; simpl in H;
    try discriminate.
  apply wf_update_logic in U; auto.
  rewrite fold_on_event in H. injection H as <- _ _.
  induction (fires event_list); simpl; auto using wf_spawn.
Qed.

(** ** A bullet leaves the list only by a collision *)

Lemma check_collisions_keeps g g' b :
  NoDup (map Bullet.id (Game.bullet_list g)) ->
  In b (Game.bullet_list g) ->
  (forall a, In a (Game.alien_list g) ->
     colliderect (Bullet.get_rectangle b) (Alien.get_rectangle a) = false) ->
  Game.check_collisions g = Done g' ->
  In b (Game.bullet_list g').
Proof.
  intros ND Hb Hmiss H. unfold Game.check_collisions in H.
  apply (for_bullet_rule (fun s =>
    In b (Game.bullet_list s) /\
    incl (Game.bullet_list s) (Game.bullet_list g) /\
    incl (Game.alien_list s) (Game.alien_list g))) in H.
  - tauto.
  - intros s0 bullet s alien bl al (_ & I0 & _) Hbullet (Hin & Ib & Ia)
      Halien C RB RA.
    simpl. repeat split.
    + eapply list_remove_keeps; eauto.
      unfold Bullet.same. apply Nat.eqb_neq. intros E.
      assert (b = bullet)
        by (eapply (NoDup_map_inj Bullet.id); eauto).
      subst bullet. rewrite Hmiss in C; [discriminate|auto].
    + intros z Hz. apply Ib. eapply list_remove_incl; eauto.
    + intros z Hz. apply Ia. eapply list_remove_incl; eauto.
  - auto using incl_refl.
Qed.

Lemma update_logic_keeps g event_list g' b :
  wf g -> In b (Game.bullet_list g) ->
  (forall a, In a (Game.alien_list g) ->
     colliderect (Bullet.get_rectangle (Bullet.update b event_list))
                 (Alien.get_rectangle (Alien.update a event_list))
       = false) ->
  Game.update_logic g event_list = Done g' ->
  In (Bullet.update b event_list) (Game.bullet_list g').
Proof.
  intros (_ & Wb & _) Hb Hmiss. apply check_collisions_keeps; simpl.
  - now rewrite map_map.
  - now apply (in_map (fun bullet => Bullet.update bullet event_list)).
  - intros a' Ha'. apply in_map_iff in Ha' as (a & <- & Ha). auto.
Qed.

(** Running the loops by hand: one step of whichever loop is next. *)
Ltac loop_exit :=
  cbn [nth_error Game.bullet_list Game.alien_list hit Game.set_alien_list
       Game.set_bullet_list list_remove bind length].
Ltac loop_step :=
  first [rewrite for_alien_S | rewrite for_bullet_S]; loop_exit.

(** ** Rectangles *)

(** For rectangles of positive size [colliderect] is the usual overlap
    test on both axes. *)
Lemma colliderect_overlap (A B : Rect) :
  0 < w A -> 0 < h A -> 0 < w B -> 0 < h B ->
  colliderect A B
  = (left A <? left B + w B) && (top A <? top B + h B)
    && (left B <? left A + w A) && (top B <? top A + h A).
Proof.
  intros. unfold colliderect.
  replace (w A =? 0) with false by (symmetry; apply Z.eqb_neq; lia).
  replace (h A =? 0) with false by (symmetry; apply Z.eqb_neq; lia).
  replace (w B =? 0) with false by (symmetry; apply Z.eqb_neq; lia).
  replace (h B =? 0) with false by (symmetry; apply Z.eqb_neq; lia).
  simpl.
  rewrite !Z.min_l, !Z.max_r, !Z.max_l, !Z.gtb_ltb by lia.
  reflexivity.
Qed.

Lemma colliderect_same_place (b : Bullet.t) (a : Alien.t) :
  Bullet.x b = Alien.x a -> Bullet.y b = Alien.y a ->
  0 < width (Bullet._image b) -> 0 < height (Bullet._image b) ->
  0 < width (Alien._image a) -> 0 < height (Alien._image a) ->
  colliderect (Bullet.get_rectangle b) (Alien.get_rectangle a) = true.
Proof.
  intros Hx Hy ? ? ? ?. rewrite colliderect_overlap by (simpl; lia).
  simpl. rewrite Hx, Hy.
  repeat (apply andb_true_intro; split); apply Z.ltb_lt; lia.
Qed.

(** ** C8 *)

(** C8: when the collision pass runs on exactly one bullet at (100, 500)
    and exactly one alien at (100, 500), both images of positive width and
    height, it returns normally and leaves both lists empty. *)
Theorem collision_removes_the_pair (g : Game.t) (b : Bullet.t) (a : Alien.t) :
  Game.bullet_list g = [b] -> Game.alien_list g = [a] ->
  Bullet.x b = 100 -> Bullet.y b = 500 ->
  Alien.x a = 100 -> Alien.y a = 500 ->
  0 < width (Bullet._image b) -> 0 < height (Bullet._image b) ->
  0 < width (Alien._image a) -> 0 < height (Alien._image a) ->
  exists g',
    Game.check_collisions g = Done g' /\
    Game.bullet_list g' = [] /\ Game.alien_list g' = [] /\
    ~ In b (Game.bullet_list g') /\ ~ In a (Game.alien_list g').
Proof.
  intros Hb Ha Bx By Ax Ay ? ? ? ?.
  assert (C : colliderect (Bullet.get_rectangle b) (Alien.get_rectangle a)
              = true)
    by (apply colliderect_same_place; auto; congruence).
  destruct g as [p al bl bg n]. simpl in Hb, Ha. subst al bl.
  exists {| Game.player := p; Game.alien_list := []; Game.bullet_list := [];
            Game.background := bg; Game.next_id := n |}.
  unfold Game.check_collisions. loop_step. loop_step.
  rewrite C, Bullet_same_refl, Alien_same_refl. loop_exit.
  loop_step. loop_step. simpl. tauto.
Qed.

Lemma collision_removes_the_pair_witness :
  exists g',
    Game.check_collisions face_to_face = Done g' /\
    Game.bullet_list g' = [] /\ Game.alien_list g' = [] /\
    ~ In (bullet_at 1 100 500) (Game.bullet_list g') /\
    ~ In (alien_at 0 100 500) (Game.alien_list g').
Proof.
  apply (collision_removes_the_pair face_to_face
           (bullet_at 1 100 500) (alien_at 0 100 500));
    reflexivity.
Defined.

(** ** C1 *)

(** A bullet that hits the first of two aliens removes that alien only:
    the list has shrunk under the iterator, which is then past its end. *)
Lemma first_match_only p bg n b a1 a2 :
  colliderect (Bullet.get_rectangle b) (Alien.get_rectangle a1) = true ->
  Game.check_collisions
    {| Game.player := p; Game.alien_list := [a1; a2];
       Game.bullet_list := [b]; Game.background := bg; Game.next_id := n |}
  = Done {| Game.player := p; Game.alien_list := [a2];
            Game.bullet_list := []; Game.background := bg;
            Game.next_id := n |}.
Proof.
  intros C1. unfold Game.check_collisions. loop_step. loop_step.
  rewrite C1, Bullet_same_refl, Alien_same_refl. loop_exit.
  loop_step. loop_step. reflexivity.
Qed.

(** With three aliens the inner loop goes on after the hit, with the
    bullet it has already removed, and compares it with the third alien. *)
Lemma removed_bullet_compared_again p bg n b a1 a2 a3 :
  colliderect (Bullet.get_rectangle b) (Alien.get_rectangle a1) = true ->
  Game.check_collisions
    {| Game.player := p; Game.alien_list := [a1; a2; a3];
       Game.bullet_list := [b]; Game.background := bg; Game.next_id := n |}
  = if colliderect (Bullet.get_rectangle b) (Alien.get_rectangle a3)
    then Raised ValueError
    else Done {| Game.player := p; Game.alien_list := [a2; a3];
                 Game.bullet_list := []; Game.background := bg;
                 Game.next_id := n |}.
Proof.
  intros C1. unfold Game.check_collisions. loop_step. loop_step.
  rewrite C1, Bullet_same_refl, Alien_same_refl. loop_exit.
  loop_step. destruct (colliderect _ (Alien.get_rectangle a3)).
  - reflexivity.
  - loop_step. loop_step. reflexivity.
Qed.

Lemma wf_three_aliens : wf three_aliens.
Proof.
  unfold wf. simpl. repeat split.
  - repeat constructor; simpl; intuition discriminate.
  - repeat constructor. intros [].
  - repeat constructor.
Qed.

(** C1: the collision pass is meant never to raise and to leave a bullet
    that has hit an alien out of every later comparison.  On three aliens
    in one place and one bullet reaching them, [update_logic] raises
    ValueError: after the first hit the inner loop compares the removed
    bullet with the third alien and removes the bullet a second time. *)
Theorem three_aliens_raise_ValueError :
  Game.update_logic three_aliens [] = Raised ValueError.
Proof. vm_compute. reflexivity. Qed.

(** ** C3 *)

Lemma Alien_update_spec (a : Alien.t) (event_list : list Event) :
  let moved := Alien.x a + Alien.speed a in
  let outside :=
    (moved <? Alien.left_limit a) || (moved >? Alien.right_limit a) in
  Alien.update a event_list
  = {| Alien.id := Alien.id a;
       Alien.x := moved;
       Alien.y := if outside then Alien.y a + 10 else Alien.y a;
       Alien.speed := if outside then - Alien.speed a else Alien.speed a;
       Alien.left_limit := Alien.left_limit a;
       Alien.right_limit := Alien.right_limit a;
       Alien._image := Alien._image a |}.
Proof.
  unfold Alien.update, Alien.set_y, Alien.set_speed, Alien.set_x. cbn.
  destruct (_ || _); cbn; [|reflexivity].
  f_equal. lia.
Qed.

(** The first 80 ticks of an alien started at x = 100 with speed 5. *)
Lemma alien_marches_right pg i sy (batches : list (list Event)) :
  (length batches <= 80)%nat ->
  fold_left Alien.update batches (Alien.init pg i 100 sy 5)
  = Alien.init pg i (100 + 5 * Z.of_nat (length batches)) sy 5.
Proof.
  induction batches as [|event_list batches IH] using rev_ind; intros L.
  - reflexivity.
  - rewrite length_app in *. cbn [length] in *.
    rewrite fold_left_app. cbn [fold_left].
    rewrite IH by lia. rewrite Alien_update_spec. unfold Alien.init.
    cbv zeta. cbn [Alien.x Alien.y Alien.speed Alien.left_limit
      Alien.right_limit Alien.id Alien._image].
    replace (_ || _) with false.
    + f_equal. lia.
    + symmetry. apply orb_false_intro; [|rewrite Z.gtb_ltb]; apply Z.ltb_ge;
        lia.
Qed.

(** C3: [Alien.update] always adds [speed] to [x]; then, exactly when the
    new [x] is below [left_limit] or above [right_limit] (50 and 500 for
    every alien [__init__] makes), it negates [speed] and adds 10 to [y].
    An alien started at x = 100 with speed 5 keeps speed 5 and its row for
    its first 80 ticks (x = 100 + 5n, at most 500); on tick 81, the first
    with x above 500, its speed becomes -5 and its y grows by exactly 10. *)
Theorem alien_zigzag pg i sy (a : Alien.t) (event_list : list Event)
  (batches : list (list Event)) (n : nat) :
  length batches = 81%nat -> (n <= 80)%nat ->
  let start := Alien.init pg i 100 sy 5 in
  let moved := Alien.x a + Alien.speed a in
  let outside :=
    (moved <? Alien.left_limit a) || (moved >? Alien.right_limit a) in
  Alien.update a event_list
  = {| Alien.id := Alien.id a;
       Alien.x := moved;
       Alien.y := if outside then Alien.y a + 10 else Alien.y a;
       Alien.speed := if outside then - Alien.speed a else Alien.speed a;
       Alien.left_limit := Alien.left_limit a;
       Alien.right_limit := Alien.right_limit a;
       Alien._image := Alien._image a |} /\
  Alien.left_limit start = 50 /\ Alien.right_limit start = 500 /\
  fold_left Alien.update (firstn n batches) start
  = Alien.init pg i (100 + 5 * Z.of_nat n) sy 5 /\
  100 + 5 * Z.of_nat n <= 500 /\
  fold_left Alien.update batches start = Alien.init pg i 505 (sy + 10) (-5).
Proof.
  intros L Hn start moved outside. split; [apply Alien_update_spec|].
  split; [reflexivity|]. split; [reflexivity|].
  assert (Ln : length (firstn n batches) = n)
    by (rewrite length_firstn; lia).
  split; [|split; [lia|]].
  - unfold start. rewrite alien_marches_right by lia. now rewrite Ln.
  - destruct (rev batches) as [|last front] eqn:R.
    + apply (f_equal (@length _)) in R. rewrite length_rev in R.
      simpl in R. lia.
    + apply (f_equal (@rev _)) in R. rewrite rev_involutive in R.
      simpl in R. subst batches. rewrite length_app in L. cbn [length] in L.
      rewrite fold_left_app. cbn [fold_left]. unfold start.
      rewrite alien_marches_right by lia.
      replace (length (rev front)) with 80%nat by lia.
      reflexivity.
Qed.

Lemma alien_zigzag_witness :
  Alien.speed
    (fold_left Alien.update (repeat [] 81) (Alien.init pg0 0 100 100 5))
  = -5.
Proof.
  destruct (alien_zigzag pg0 0 100 (alien_at 0 100 100) [] (repeat [] 81) 80
              eq_refl (Nat.le_refl 80)) as (_ & _ & _ & _ & _ & H).
  rewrite H. reflexivity.
Defined.

(** ** C4, C5 *)

Lemma sum_delta_app l1 l2 :
  sum_delta (l1 ++ l2) = sum_delta l1 + sum_delta l2.
Proof.
  unfold sum_delta. induction l1 as [|e l1 IH]; cbn [app map fold_right];
    [reflexivity|]. rewrite IH. apply Z.add_assoc.
Qed.

Lemma Player_on_event_spec p event :
  Player.on_event p event
  = Player.set_x_vel p (Player.x_vel p + delta event).
Proof.
  destruct p as [x y vx vy im].
  destruct event as [[| | | |c]|[| | | |c]| |ty];
    unfold Player.on_event, Player.set_x_vel, delta;
    cbn [Player.x Player.y Player.x_vel Player.y_vel Player._image];
    f_equal; lia.
Qed.

Lemma Player_fold_on_event event_list p :
  fold_left Player.on_event event_list p
  = Player.set_x_vel p (Player.x_vel p + sum_delta event_list).
Proof.
  revert p. induction event_list as [|e l IH]; intros p.
  - destruct p. unfold Player.set_x_vel, sum_delta. simpl. f_equal. lia.
  - cbn [fold_left]. rewrite IH, Player_on_event_spec.
    unfold Player.set_x_vel, sum_delta. simpl. f_equal. lia.
Qed.

Lemma Player_update_spec p event_list :
  Player.update p event_list
  = {| Player.x := Player.x p + (Player.x_vel p + sum_delta event_list);
       Player.y := Player.y p + Player.y_vel p;
       Player.x_vel := Player.x_vel p + sum_delta event_list;
       Player.y_vel := Player.y_vel p;
       Player._image := Player._image p |}.
Proof.
  unfold Player.update. rewrite Player_fold_on_event. reflexivity.
Qed.

(** The player after any number of ticks. *)
Lemma Player_updates batches p :
  fold_left Player.update batches p
  = {| Player.x := travel (Player.x p) (Player.x_vel p) batches;
       Player.y := Player.y p + Z.of_nat (length batches) * Player.y_vel p;
       Player.x_vel := Player.x_vel p + sum_delta (concat batches);
       Player.y_vel := Player.y_vel p;
       Player._image := Player._image p |}.
Proof.
  revert p. induction batches as [|event_list batches IH]; intros p.
  - destruct p. cbn. f_equal; lia.
  - cbn [fold_left]. rewrite IH, Player_update_spec.
    cbn [Player.x Player.y Player.x_vel Player.y_vel Player._image travel
         concat length].
    rewrite sum_delta_app. f_equal; lia.
Qed.

Lemma sum_delta_other event_list :
  Forall (fun e => is_left e = false /\ is_right e = false) event_list ->
  sum_delta event_list = 0.
Proof.
  unfold sum_delta. induction 1 as [|e l [Hl Hr] _ IH]; [reflexivity|].
  cbn [map fold_right]. rewrite IH.
  destruct e as [[| | | |c]|[| | | |c]| |ty]; simpl in *; congruence.
Qed.

(** C4: started at rest, the player is at rest again after a key-down of
    LEFT, then any events of other keys (none of RIGHT), then the matching
    key-up of LEFT, however the events fall into ticks. *)
Theorem left_tap_returns_to_rest (p : Player.t)
  (batches : list (list Event)) (between : list Event) :
  Player.x_vel p = 0 ->
  concat batches = KEYDOWN K_LEFT :: between ++ [KEYUP K_LEFT] ->
  Forall (fun e => is_left e = false /\ is_right e = false) between ->
  Player.x_vel (fold_left Player.update batches p) = 0.
Proof.
  intros V E F. rewrite Player_updates. cbn [Player.x_vel].
  rewrite E, V.
  change (KEYDOWN K_LEFT :: between ++ [KEYUP K_LEFT])
    with ([KEYDOWN K_LEFT] ++ between ++ [KEYUP K_LEFT]).
  rewrite !sum_delta_app, (sum_delta_other between F). reflexivity.
Qed.

Lemma left_tap_returns_to_rest_witness :
  Player.x_vel
    (fold_left Player.update
       [[KEYDOWN K_LEFT]; [KEYDOWN K_SPACE]; []; [KEYUP K_LEFT]]
       (Player.init pg0)) = 0.
Proof.
  apply (left_tap_returns_to_rest (Player.init pg0)
           [[KEYDOWN K_LEFT]; [KEYDOWN K_SPACE]; []; [KEYUP K_LEFT]]
           [KEYDOWN K_SPACE]).
  - reflexivity.
  - reflexivity.
  - repeat constructor.
Defined.

(** C5: started at rest, after key-down LEFT, key-down RIGHT, key-up RIGHT
    (LEFT still held) the player's horizontal velocity is -10, however the
    three events fall into ticks. *)
Theorem left_held_right_tapped (p : Player.t) (batches : list (list Event)) :
  Player.x_vel p = 0 ->
  concat batches = [KEYDOWN K_LEFT; KEYDOWN K_RIGHT; KEYUP K_RIGHT] ->
  Player.x_vel (fold_left Player.update batches p) = -10.
Proof.
  intros V E. rewrite Player_updates. cbn [Player.x_vel].
  rewrite E, V. reflexivity.
Qed.

Lemma left_held_right_tapped_witness :
  Player.x_vel
    (fold_left Player.update
       [[KEYDOWN K_LEFT]; [KEYDOWN K_RIGHT]; [KEYUP K_RIGHT]]
       (Player.init pg0)) = -10.
Proof.
  apply (left_held_right_tapped (Player.init pg0)
           [[KEYDOWN K_LEFT]; [KEYDOWN K_RIGHT]; [KEYUP K_RIGHT]]);
    reflexivity.
Defined.

(** ** C9 *)

Lemma update_logic_empty g event_list :
  Game.alien_list g = [] -> Game.bullet_list g = [] ->
  Game.update_logic g event_list
  = Done (Game.set_player g (Player.update (Game.player g) event_list)).
Proof.
  destruct g as [p al bl bg n]. simpl. intros -> ->. reflexivity.
Qed.

Lemma update_logic_n_empty batches g :
  Game.alien_list g = [] -> Game.bullet_list g = [] ->
  update_logic_n g batches
  = Done (Game.set_player g (fold_left Player.update batches (Game.player g))).
Proof.
  revert g. induction batches as [|event_list batches IH]; intros g Ha Hb.
  - destruct g. reflexivity.
  - cbn [update_logic_n fold_left]. rewrite update_logic_empty by assumption.
    cbn [bind]. rewrite IH by assumption. reflexivity.
Qed.

(** C9: with no alien and no bullet, any number of calls of [update_logic]
    on any event batches returns normally; afterwards both lists are still
    empty and nothing but the player's motion has changed: the velocity has
    taken up the deltas of the events and the position the velocity of
    every tick. *)
Theorem empty_world_only_moves_player (g : Game.t)
  (batches : list (list Event)) :
  Game.alien_list g = [] -> Game.bullet_list g = [] ->
  update_logic_n g batches
  = Done
      {| Game.player :=
           let p := Game.player g in
           {| Player.x := travel (Player.x p) (Player.x_vel p) batches;
              Player.y :=
                Player.y p + Z.of_nat (length batches) * Player.y_vel p;
              Player.x_vel := Player.x_vel p + sum_delta (concat batches);
              Player.y_vel := Player.y_vel p;
              Player._image := Player._image p |};
         Game.alien_list := [];
         Game.bullet_list := [];
         Game.background := Game.background g;
         Game.next_id := Game.next_id g |}.
Proof.
  intros Ha Hb. rewrite update_logic_n_empty by assumption.
  rewrite Player_updates. unfold Game.set_player. now rewrite Ha, Hb.
Qed.

Lemma empty_world_only_moves_player_witness :
  update_logic_n (game_of [] [] 1)
    [[KEYDOWN K_RIGHT]; [KEYDOWN K_SPACE]; [KEYUP K_RIGHT; QUIT]]
  = Done
      {| Game.player :=
           {| Player.x := 120; Player.y := 500; Player.x_vel := 0;
              Player.y_vel := 0; Player._image := image_load pg0 "UFO.png" |};
         Game.alien_list := [];
         Game.bullet_list := [];
         Game.background := img0;
         Game.next_id := 1 |}.
Proof.
  apply (empty_world_only_moves_player (game_of [] [] 1)
           [[KEYDOWN K_RIGHT]; [KEYDOWN K_SPACE]; [KEYUP K_RIGHT; QUIT]]);
    reflexivity.
Defined.

(** ** C2 *)

Lemma spawned_length pg g n : length (spawned pg g n) = n.
Proof. unfold spawned. now rewrite length_map, length_seq. Qed.

Lemma spawned_place pg g n :
  Forall (fun b => Bullet.x b = Player.x (Game.player g) /\ Bullet.y b = 500)
    (spawned pg g n).
Proof.
  unfold spawned. apply Forall_forall. intros b Hb.
  apply in_map_iff in Hb as (k & <- & _). split; reflexivity.
Qed.

(** C2, as the code orders a tick: the entity updates (player, aliens,
    bullets), then the collision pass, then the render pass on the state
    the collision pass left, and only then the spawning: one new bullet
    per fire key-down of the batch, each at the player's current x and at
    row 500, appended after the frame was presented.  The tick's render
    therefore draws the bullets that were there before the spawning, and
    none of the bullets spawned in this tick. *)
Theorem render_then_spawn (pg : pygame) (g g' : Game.t)
  (event_list : list Event) (running : bool) (calls : list Call) :
  Game.iteration pg g event_list = Done (g', running, calls) ->
  exists g1,
    Game.check_collisions
      {| Game.player := Player.update (Game.player g) event_list;
         Game.alien_list :=
           map (fun alien => Alien.update alien event_list)
               (Game.alien_list g);
         Game.bullet_list :=
           map (fun bullet => Bullet.update bullet event_list)
               (Game.bullet_list g);
         Game.background := Game.background g;
         Game.next_id := Game.next_id g |} = Done g1 /\
    Game.player g1 = Player.update (Game.player g) event_list /\
    calls =
      [ClockTick 60; EventGet]
      ++ ([Blit (Game.background g1) 0 0; Player.draw (Game.player g1)]
          ++ map Alien.draw (Game.alien_list g1)
          ++ map Bullet.draw (Game.bullet_list g1)
          ++ [Flip])
      ++ repeat (ImageLoad "Bullet.png") (fires event_list) /\
    Game.player g' = Game.player g1 /\
    Game.alien_list g' = Game.alien_list g1 /\
    Game.bullet_list g'
      = Game.bullet_list g1 ++ spawned pg g1 (fires event_list) /\
    length (spawned pg g1 (fires event_list)) = fires event_list /\
    Forall (fun b => Bullet.x b = Player.x (Game.player g') /\
                     Bullet.y b = 500)
      (spawned pg g1 (fires event_list)).
Proof.
  intros H. rewrite iteration_eq in H.
  destruct (Game.update_logic g event_list) as [g1| |] eqn:U; simpl in H;
    try discriminate.
  injection H as <- _ <-. exists g1. split; [exact U|].
  split.
  { unfold Game.update_logic, Game.check_collisions in U.
    apply for_bullet_frame in U. simpl in U. tauto. }
  split; [reflexivity|]. simpl.
  repeat split; auto using spawned_length, spawned_place.
Qed.

Lemma render_then_spawn_witness :
  exists g1,
    Game.update_logic (Game.init pg0) [KEYDOWN K_SPACE] = Done g1 /\
    Game.bullet_list g1 = [].
Proof.
  destruct (Game.iteration pg0 (Game.init pg0) [KEYDOWN K_SPACE])
    as [[[g' running] calls]| |] eqn:E; try discriminate E.
  destruct (render_then_spawn pg0 (Game.init pg0) g' [KEYDOWN K_SPACE]
              running calls E) as (g1 & U & _).
  exists g1. split; [exact U|].
  vm_compute in U. injection U as <-. reflexivity.
Defined.

(** The fire key is pressed in the first tick of a new game: the bullet is
    in the list after the tick, and the tick's frame does not show it. *)
Lemma spawned_bullet_not_drawn :
  ~ drawn_when_spawned pg0 (Game.init pg0) [KEYDOWN K_SPACE].
Proof.
  intros H.
  specialize (H _ _ _ _ eq_refl eq_refl (bullet_at 1 100 500)
                (or_introl eq_refl) (fun F => F)).
  vm_compute in H.
  repeat (destruct H as [H|H]; [discriminate H|]). exact H.
Qed.

(** Two fire key-downs in one batch spawn two bullets. *)
Lemma two_fires_two_bullets :
  exists g' running calls,
    Game.iteration pg0 (Game.init pg0) [KEYDOWN K_SPACE; KEYDOWN K_SPACE]
      = Done (g', running, calls) /\
    Game.bullet_list g' = [bullet_at 1 100 500; bullet_at 2 100 500].
Proof. do 3 eexists. split; reflexivity. Qed.

(** ** C6 *)

Lemma Bullet_set_y_id b : Bullet.set_y b (Bullet.y b - 10 * 0) = b.
Proof. destruct b. unfold Bullet.set_y. simpl. f_equal. lia. Qed.

Lemma Bullet_set_y_again b k :
  let b' := Bullet.set_y b (Bullet.y b - 10) in
  Bullet.set_y b' (Bullet.y b' - 10 * Z.of_nat k)
  = Bullet.set_y b (Bullet.y b - 10 * Z.of_nat (S k)).
Proof.
  unfold Bullet.set_y.
  cbn [Bullet.id Bullet.x Bullet.y Bullet.velocity Bullet._image].
  f_equal. lia.
Qed.

Lemma iteration_keeps pg g event_list g' running calls b :
  wf g -> In b (Game.bullet_list g) ->
  (forall a, In a (Game.alien_list g) ->
     colliderect (Bullet.get_rectangle (Bullet.update b event_list))
                 (Alien.get_rectangle (Alien.update a event_list))
       = false) ->
  Game.iteration pg g event_list = Done (g', running, calls) ->
  In (Bullet.update b event_list) (Game.bullet_list g').
Proof.
  intros W Hb Hmiss H. rewrite iteration_eq in H.
  destruct (Game.update_logic g event_list) as [g1| |] eqn:U; simpl in H;
    try discriminate.
  injection H as <- _ _. simpl. apply in_or_app. left.
  eapply update_logic_keeps; eauto.
Qed.

(** In one tick every bullet either stays in the list or overlapped an
    alien in the collision pass. *)
Lemma iteration_keeps_or_hit pg g event_list g' running calls b :
  wf g -> In b (Game.bullet_list g) ->
  Game.iteration pg g event_list = Done (g', running, calls) ->
  In (Bullet.update b event_list) (Game.bullet_list g') \/
  exists a, In a (Game.alien_list g) /\
    colliderect (Bullet.get_rectangle (Bullet.update b event_list))
                (Alien.get_rectangle (Alien.update a event_list)) = true.
Proof.
  intros W Hb H.
  destruct (existsb (fun a =>
    colliderect (Bullet.get_rectangle (Bullet.update b event_list))
                (Alien.get_rectangle (Alien.update a event_list)))
    (Game.alien_list g)) eqn:E.
  - right. apply existsb_exists in E. exact E.
  - left. eapply iteration_keeps; eauto.
    intros a Ha. destruct (colliderect _ _) eqn:C; [|reflexivity].
    rewrite <- E. symmetry. apply existsb_exists. eauto.
Qed.

Lemma bullet_survives_run pg input :
  forall g calls b,
    wf g -> In b (Game.bullet_list g) -> misses pg g b input ->
    match Game.main_loop_from pg g calls input with
    | Game.Running g' _ =>
        In (Bullet.set_y b (Bullet.y b - 10 * Z.of_nat (length input)))
           (Game.bullet_list g')
    | Game.Stopped g' _ =>
        exists k, (1 <= k <= length input)%nat /\
          In (Bullet.set_y b (Bullet.y b - 10 * Z.of_nat k))
             (Game.bullet_list g')
    | Game.Crashed _ _ => True
    | Game.Stuck => False
    end.
Proof.
  induction input as [|event_list input IH]; intros g calls b W Hb M.
  - simpl. now rewrite Bullet_set_y_id.
  - cbn [Game.main_loop_from]. destruct M as [Hmiss M].
    destruct (Game.iteration pg g event_list) as [[[g' running] out]| |]
      eqn:E.
    + pose proof (iteration_keeps _ _ _ _ _ _ _ W Hb Hmiss E) as Hb'.
      pose proof (wf_iteration _ _ _ _ _ _ W E) as W'.
      assert (V : Bullet.velocity b = 10).
      { destruct W as (_ & _ & F). rewrite Forall_forall in F.
        now destruct (F b Hb). }
      rewrite Bullet_update_eq, V in Hb', M.
      destruct running.
      * specialize (IH g' (calls ++ out) _ W' Hb' M).
        destruct (Game.main_loop_from pg g' (calls ++ out) input)
          as [g2 c|g2 c|e c|]; auto.
        -- destruct IH as (k & Hk & Hin). exists (S k).
           split; [cbn [length]; lia|].
           now rewrite Bullet_set_y_again in Hin.
        -- cbn [length]. now rewrite Bullet_set_y_again in IH.
      * exists 1%nat. split; [simpl; lia|]. exact Hb'.
    + exact I.
    + unfold Game.iteration in E.
      destruct (Game.update_logic g event_list) eqn:U; simpl in E;
        try discriminate.
      now apply update_logic_fuel in U.
Qed.

(** C6: [Bullet.update] does not look at the events and takes exactly 10
    off [y]; in a tick a bullet either stays in the list or overlapped an
    alien in that tick's collision pass; and a bullet that overlaps no
    alien in any tick of a run is still in the list, 10 px higher per
    tick, however long the run. *)
Theorem bullets_leave_only_by_collision (pg : pygame) (g : Game.t)
  (b : Bullet.t) (input : list (list Event)) :
  wf g -> In b (Game.bullet_list g) -> misses pg g b input ->
  (forall event_list,
     Bullet.update b event_list = Bullet.set_y b (Bullet.y b - 10)) /\
  (forall event_list g' running calls c,
     In c (Game.bullet_list g) ->
     Game.iteration pg g event_list = Done (g', running, calls) ->
     In (Bullet.update c event_list) (Game.bullet_list g') \/
     exists a, In a (Game.alien_list g) /\
       colliderect (Bullet.get_rectangle (Bullet.update c event_list))
                   (Alien.get_rectangle (Alien.update a event_list))
         = true) /\
  match Game.main_loop pg g input with
  | Game.Running g' _ =>
      In (Bullet.set_y b (Bullet.y b - 10 * Z.of_nat (length input)))
         (Game.bullet_list g')
  | Game.Stopped g' _ =>
      exists k, (1 <= k <= length input)%nat /\
        In (Bullet.set_y b (Bullet.y b - 10 * Z.of_nat k))
           (Game.bullet_list g')
  | Game.Crashed _ _ => True
  | Game.Stuck => False
  end.
Proof.
  intros W Hb M. split; [|split].
  - intros event_list. rewrite Bullet_update_eq.
    destruct W as (_ & _ & F). rewrite Forall_forall in F.
    destruct (F b Hb) as [_ ->]. reflexivity.
  - intros event_list g' running calls c Hc E.
    eapply iteration_keeps_or_hit; eauto.
  - now apply bullet_survives_run.
Qed.

Lemma bullets_leave_only_by_collision_witness :
  In (bullet_at 1 300 20)
     match Game.main_loop pg0 with_stray [[KEYDOWN K_SPACE]; []; []] with
     | Game.Running g' _ => Game.bullet_list g'
     | _ => []
     end.
Proof.
  destruct (bullets_leave_only_by_collision pg0 with_stray stray_bullet
              [[KEYDOWN K_SPACE]; []; []]) as (_ & _ & H).
  - unfold wf. simpl. repeat split.
    + repeat constructor. intros [].
    + repeat constructor. intros [].
    + repeat constructor.
  - left. reflexivity.
  - cbn. repeat split; intros a [<-|[]]; reflexivity.
  - vm_compute in H |- *. exact H.
Defined.

(** ** C7 *)








(** ** C10 *)

Section Identity.
Context {A : Type} (id : A -> nat) (R : A -> A -> Prop).
Let same (a b : A) : bool := Nat.eqb (id a) (id b).

(** Lists that agree item by item, also on which items are [x]. *)
Lemma list_remove_twin (x1 x2 : A) (l1 l2 : list A) :
  Forall2 (fun y1 y2 => R y1 y2 /\ same y1 x1 = same y2 x2) l1 l2 ->
  outcome_rel
    (Forall2 (fun y1 y2 => R y1 y2 /\ same y1 x1 = same y2 x2))
    (list_remove same x1 l1) (list_remove same x2 l2).
Proof.
  induction 1 as [|y1 y2 l1 l2 [Hy E] F IH]; simpl; [reflexivity|].
  destruct (same y2 x2) eqn:E2; rewrite E; simpl; [exact F|].
  destruct (list_remove same x1 l1), (list_remove same x2 l2); simpl in *;
    auto.
  constructor; [split; [exact Hy|congruence]|exact IH].
Qed.

Lemma same_absent (x1 x2 : A) (l1 l2 : list A) :
  Forall2 R l1 l2 ->
  ~ In (id x1) (map id l1) -> ~ In (id x2) (map id l2) ->
  Forall2 (fun y1 y2 => R y1 y2 /\ same y1 x1 = same y2 x2) l1 l2.
Proof.
  induction 1 as [|y1 y2 l1 l2 Hy F IH]; simpl; intros N1 N2; constructor.
  - split; [exact Hy|]. unfold same.
    replace (id y1 =? id x1)%nat with false
      by (symmetry; apply Nat.eqb_neq; tauto).
    symmetry. apply Nat.eqb_neq. tauto.
  - apply IH; tauto.
Qed.

(** In lists of distinct objects the position tells which item is [x]. *)
Lemma same_by_position (l1 l2 : list A) :
  Forall2 R l1 l2 -> NoDup (map id l1) -> NoDup (map id l2) ->
  forall k x1 x2,
    nth_error l1 k = Some x1 -> nth_error l2 k = Some x2 ->
    Forall2 (fun y1 y2 => R y1 y2 /\ same y1 x1 = same y2 x2) l1 l2.
Proof.
  induction 1 as [|y1 y2 l1 l2 Hy F IH]; intros N1 N2 k x1 x2 H1 H2.
  - destruct k; discriminate.
  - inversion N1 as [|? ? Hn1 N1']; inversion N2 as [|? ? Hn2 N2']; subst.
    destruct k as [|k]; simpl in H1, H2.
    + injection H1 as <-. injection H2 as <-. constructor.
      * split; [exact Hy|]. unfold same. now rewrite !Nat.eqb_refl.
      * now apply same_absent.
    + constructor.
      * split; [exact Hy|]. unfold same.
        apply nth_error_In, (in_map id) in H1, H2.
        replace (id y1 =? id x1)%nat with false
          by (symmetry; apply Nat.eqb_neq; congruence).
        symmetry. apply Nat.eqb_neq. congruence.
      * eapply IH; eauto.
Qed.

Lemma Forall2_nth_error (l1 l2 : list A) (k : nat) :
  Forall2 R l1 l2 ->
  match nth_error l1 k, nth_error l2 k with
  | Some x1, Some x2 => R x1 x2
  | None, None => True
  | _, _ => False
  end.
Proof.
  intros F. revert k. induction F; intros [|k]; simpl; auto.
  apply IHF.
Qed.

End Identity.

Lemma get_rectangle_twin b1 b2 a1 a2 :
  bullet_twin b1 b2 -> alien_twin a1 a2 ->
  Bullet.get_rectangle b1 = Bullet.get_rectangle b2 /\
  Alien.get_rectangle a1 = Alien.get_rectangle a2.
Proof.
  intros (Bx & By & _ & Bi) (Ax & Ay & _ & _ & _ & Ai).
  unfold Bullet.get_rectangle, Alien.get_rectangle.
  now rewrite Bx, By, Bi, Ax, Ay, Ai.
Qed.

Lemma Alien_update_twin a1 a2 event_list :
  alien_twin a1 a2 ->
  alien_twin (Alien.update a1 event_list) (Alien.update a2 event_list).
Proof.
  intros (Hx & Hy & Hs & Hl & Hr & Hi). rewrite !Alien_update_spec.
  unfold alien_twin. cbv zeta.
  cbn [Alien.x Alien.y Alien.speed Alien.left_limit Alien.right_limit
       Alien._image].
  rewrite Hx, Hy, Hs, Hl, Hr, Hi. repeat split; reflexivity.
Qed.

Lemma Bullet_update_twin b1 b2 event_list :
  bullet_twin b1 b2 ->
  bullet_twin (Bullet.update b1 event_list) (Bullet.update b2 event_list).
Proof.
  intros (Hx & Hy & Hv & Hi). unfold bullet_twin, Bullet.update. simpl.
  rewrite Hy, Hv. auto.
Qed.

Lemma Forall2_map_both {A B : Type} (R : A -> A -> Prop) (S : B -> B -> Prop)
  (f : A -> B) (l1 l2 : list A) :
  (forall a1 a2, R a1 a2 -> S (f a1) (f a2)) ->
  Forall2 R l1 l2 -> Forall2 S (map f l1) (map f l2).
Proof. intros Hf. induction 1; simpl; constructor; auto. Qed.

Lemma Forall2_map_eq {A B : Type} (R : A -> A -> Prop) (f : A -> B)
  (l1 l2 : list A) :
  (forall a1 a2, R a1 a2 -> f a1 = f a2) ->
  Forall2 R l1 l2 -> map f l1 = map f l2.
Proof. intros Hf. induction 1; simpl; f_equal; auto. Qed.

(** The inner loop of two twin runs: same kind of result, twin states. *)
Lemma for_alien_twin fuel :
  forall b1 b2 j g1 g2,
    bullet_twin b1 b2 ->
    Game.player g1 = Game.player g2 ->
    Game.background g1 = Game.background g2 ->
    Forall2 alien_twin (Game.alien_list g1) (Game.alien_list g2) ->
    NoDup (map Alien.id (Game.alien_list g1)) ->
    NoDup (map Alien.id (Game.alien_list g2)) ->
    Forall2 (fun y1 y2 => bullet_twin y1 y2 /\
                          Bullet.same y1 b1 = Bullet.same y2 b2)
      (Game.bullet_list g1) (Game.bullet_list g2) ->
    NoDup (map Bullet.id (Game.bullet_list g1)) ->
    NoDup (map Bullet.id (Game.bullet_list g2)) ->
    outcome_rel pass_twin
      (Game.for_alien fuel b1 j g1) (Game.for_alien fuel b2 j g2).
Proof.
  induction fuel as [|fuel IH];
    intros b1 b2 j g1 g2 Hb Hp Hg Fa Na1 Na2 Fb Nb1 Nb2; [exact I|].
  rewrite !for_alien_S.
  pose proof (Forall2_nth_error alien_twin _ _ j Fa) as Hn.
  destruct (nth_error (Game.alien_list g1) j) as [a1|] eqn:E1,
           (nth_error (Game.alien_list g2) j) as [a2|] eqn:E2;
    try contradiction.
  - destruct (get_rectangle_twin _ _ _ _ Hb Hn) as [-> ->].
    destruct (colliderect _ _).
    + pose proof (list_remove_twin Bullet.id bullet_twin b1 b2 _ _ Fb) as Rb.
      change (fun a b : Bullet.t => (Bullet.id a =? Bullet.id b)%nat)
        with Bullet.same in Rb.
      destruct (list_remove Bullet.same b1 _) as [bl1| |] eqn:R1,
               (list_remove Bullet.same b2 _) as [bl2| |] eqn:R2;
        try contradiction; [|exact Rb|exact I].
      cbn [bind outcome_rel] in *.
      pose proof (same_by_position Alien.id alien_twin _ _ Fa Na1 Na2
                    j a1 a2 E1 E2) as Fa'.
      apply list_remove_twin in Fa'.
      change (fun a b : Alien.t => (Alien.id a =? Alien.id b)%nat)
        with Alien.same in Fa'.
      cbn [Game.alien_list Game.set_bullet_list].
      destruct (list_remove Alien.same a1 _) as [al1| |] eqn:R3,
               (list_remove Alien.same a2 _) as [al2| |] eqn:R4;
        try contradiction; [|exact Fa'|exact I].
      cbn [bind outcome_rel] in *.
      apply IH; cbn; auto.
      * eapply Forall2_impl; [|exact Fa']. intros ? ? [T _]. exact T.
      * eapply list_remove_NoDup; eauto.
      * eapply list_remove_NoDup; eauto.
      * eapply list_remove_NoDup; eauto.
      * eapply list_remove_NoDup; eauto.
    + apply IH; auto.
  - cbn. unfold pass_twin. repeat split; auto.
    eapply Forall2_impl; [|exact Fb]. intros ? ? [T _]. exact T.
Qed.

Lemma for_bullet_twin fuel :
  forall i g1 g2,
    pass_twin g1 g2 ->
    outcome_rel pass_twin
      (Game.for_bullet fuel i g1) (Game.for_bullet fuel i g2).
Proof.
  induction fuel as [|fuel IH]; intros i g1 g2 T; [exact I|].
  rewrite !for_bullet_S.
  destruct T as (Hp & Hg & Fa & Fb & Na1 & Na2 & Nb1 & Nb2).
  pose proof (Forall2_nth_error bullet_twin _ _ i Fb) as Hn.
  destruct (nth_error (Game.bullet_list g1) i) as [b1|] eqn:E1,
           (nth_error (Game.bullet_list g2) i) as [b2|] eqn:E2;
    try contradiction.
  - rewrite <- (Forall2_length Fa).
    pose proof (for_alien_twin (S (length (Game.alien_list g1))) b1 b2 0
                  g1 g2 Hn Hp Hg Fa Na1 Na2
                  (same_by_position Bullet.id bullet_twin _ _ Fb Nb1 Nb2
                     i b1 b2 E1 E2) Nb1 Nb2) as H.
    destruct (Game.for_alien _ b1 0 g1) as [s1| |],
             (Game.for_alien _ b2 0 g2) as [s2| |];
      try contradiction; cbn [bind outcome_rel] in *; auto.
  - cbn. unfold pass_twin. repeat split; auto.
Qed.

Lemma update_logic_twin g1 g2 event_list :
  twin g1 g2 ->
  outcome_rel pass_twin
    (Game.update_logic g1 event_list) (Game.update_logic g2 event_list).
Proof.
  intros ((Na1 & Nb1 & _) & (Na2 & Nb2 & _) & Hp & Hg & Fa & Fb).
  rewrite !update_logic_eq, <- (Forall2_length Fb).
  apply for_bullet_twin. unfold pass_twin. cbn. rewrite !map_map.
  repeat split; auto.
  - now rewrite Hp.
  - eapply Forall2_map_both; [|exact Fa].
    intros. now apply Alien_update_twin.
  - eapply Forall2_map_both; [|exact Fb].
    intros. now apply Bullet_update_twin.
  - erewrite map_ext; [exact Na1|]. intros a. apply Alien_update_id.
  - erewrite map_ext; [exact Na2|]. intros a. apply Alien_update_id.
Qed.

Lemma spawned_twin pg g1 g2 n :
  Game.player g1 = Game.player g2 ->
  Forall2 bullet_twin (spawned pg g1 n) (spawned pg g2 n).
Proof.
  intros Hp. unfold spawned. rewrite Hp.
  induction (seq 0 n); simpl; constructor; auto.
  unfold bullet_twin. simpl. auto.
Qed.

Lemma wf_after_tick pg g event_list t :
  wf g -> Game.update_logic g event_list = Done t ->
  wf {| Game.player := Game.player t; Game.alien_list := Game.alien_list t;
        Game.bullet_list :=
          Game.bullet_list t ++ spawned pg t (fires event_list);
        Game.background := Game.background t;
        Game.next_id := Game.next_id t + fires event_list |}.
Proof.
  intros W U. eapply (wf_iteration pg g event_list); [exact W|].
  rewrite iteration_eq, U. reflexivity.
Qed.

Lemma update_display_twin t1 t2 :
  pass_twin t1 t2 -> Game.update_display t1 = Game.update_display t2.
Proof.
  intros (Hp & Hg & Fa & Fb & _). unfold Game.update_display.
  rewrite Hp, Hg. do 2 f_equal. f_equal; [|f_equal].
  - eapply Forall2_map_eq; [|exact Fa].
    intros a1 a2 (Hx & Hy & _ & _ & _ & Hi). unfold Alien.draw.
    now rewrite Hx, Hy, Hi.
  - eapply Forall2_map_eq; [|exact Fb].
    intros b1 b2 (Hx & Hy & _ & Hi). unfold Bullet.draw.
    now rewrite Hx, Hy, Hi.
Qed.

(** One tick of two twin runs: the same kind of result, twin successor
    states, the same [running], the same calls. *)
Lemma iteration_twin pg g1 g2 event_list :
  twin g1 g2 ->
  outcome_rel tick_twin
    (Game.iteration pg g1 event_list) (Game.iteration pg g2 event_list).
Proof.
  intros T. pose proof (update_logic_twin g1 g2 event_list T) as U.
  destruct T as (W1 & W2 & _). rewrite !iteration_eq.
  destruct (Game.update_logic g1 event_list) as [t1| |] eqn:U1,
           (Game.update_logic g2 event_list) as [t2| |] eqn:U2;
    cbn [bind outcome_rel] in *; try contradiction; auto.
  unfold tick_twin. split; [|split; [reflexivity|]].
  - pose proof U as (Hp & Hg & Fa & Fb & _).
    unfold twin. cbn [Game.player Game.alien_list Game.bullet_list
      Game.background].
    split; [exact (wf_after_tick pg g1 event_list t1 W1 U1)|].
    split; [exact (wf_after_tick pg g2 event_list t2 W2 U2)|].
    repeat split; auto.
    apply Forall2_app; [exact Fb|now apply spawned_twin].
  - now rewrite (update_display_twin t1 t2 U).
Qed.

Lemma main_loop_from_twin pg input :
  forall g1 g2 calls,
    twin g1 g2 ->
    run_twin (Game.main_loop_from pg g1 calls input)
             (Game.main_loop_from pg g2 calls input).
Proof.
  induction input as [|event_list input IH]; intros g1 g2 calls T.
  - simpl. auto.
  - cbn [Game.main_loop_from].
    pose proof (iteration_twin pg g1 g2 event_list T) as H.
    destruct (Game.iteration pg g1 event_list) as [[[s1 r1] c1]| |],
             (Game.iteration pg g2 event_list) as [[[s2 r2] c2]| |];
      cbn [outcome_rel] in H; try contradiction.
    + destruct H as (T' & <- & <-). destruct r1.
      * now apply IH.
      * simpl. auto.
    + subst. simpl. auto.
    + exact I.
Qed.

Lemma twin_refl g : wf g -> twin g g.
Proof.
  intros W. unfold twin. do 4 (split; [auto|]). split.
  - induction (Game.alien_list g); constructor; auto.
    unfold alien_twin. auto 7.
  - induction (Game.bullet_list g); constructor; auto.
    unfold bullet_twin. auto.
Qed.

(** On equal states the step is the same, identities included. *)
Lemma tick_is_a_function (pg : pygame) (g1 g2 : Game.t)
  (event_list1 event_list2 : list Event) :
  g1 = g2 -> event_list1 = event_list2 ->
  Game.update_logic g1 event_list1 = Game.update_logic g2 event_list2 /\
  Game.iteration pg g1 event_list1 = Game.iteration pg g2 event_list2.
Proof. intros -> ->. auto. Qed.

(** C10: a tick is determined by the game state and the event batch.  Two
    runs whose states agree on the player and, object by object, on the
    aliens and the bullets, and that get the same batch, take the same
    step: both return or both raise the same exception; if they return,
    the successor states agree again, [running] is the same and so are the
    calls made (the frame drawn).  Nothing else enters, not even where the
    objects live; hence whole runs of [main_loop] on equal inputs agree. *)
Theorem tick_deterministic (pg : pygame) (g1 g2 : Game.t)
  (event_list1 event_list2 : list Event) (input1 input2 : list (list Event)) :
  twin g1 g2 -> event_list1 = event_list2 -> input1 = input2 ->
  outcome_rel pass_twin
    (Game.update_logic g1 event_list1) (Game.update_logic g2 event_list2) /\
  outcome_rel tick_twin
    (Game.iteration pg g1 event_list1) (Game.iteration pg g2 event_list2) /\
  run_twin (Game.main_loop pg g1 input1) (Game.main_loop pg g2 input2).
Proof.
  intros T <- <-. split; [|split].
  - now apply update_logic_twin.
  - now apply iteration_twin.
  - now apply main_loop_from_twin.
Qed.

Lemma tick_deterministic_witness :
  run_twin
    (Game.main_loop pg0 with_stray [[KEYDOWN K_SPACE]; [QUIT]; []])
    (Game.main_loop pg0 with_stray_elsewhere [[KEYDOWN K_SPACE]; [QUIT]; []]).
Proof.
  apply (tick_deterministic pg0 with_stray with_stray_elsewhere [] []
           [[KEYDOWN K_SPACE]; [QUIT]; []] [[KEYDOWN K_SPACE]; [QUIT]; []]).
  - unfold twin, wf. simpl. repeat split;
      repeat (constructor; try (intros []));
      unfold alien_twin, bullet_twin; simpl; auto.
  - reflexivity.
  - reflexivity.
Defined.

(** * Further properties of the code *)

(** ** The collision check of [update_logic] *)

Lemma update_logic_moved g event_list :
  Game.update_logic g event_list = Game.check_collisions (moved g event_list).
Proof. reflexivity. Qed.

(** An inner loop in which the bullet overlaps no alien it visits changes
    nothing. *)
Lemma for_alien_miss fuel bullet j g :
  (forall a, In a (Game.alien_list g) -> overlap bullet a = false) ->
  (length (Game.alien_list g) - j < fuel)%nat ->
  Game.for_alien fuel bullet j g = Done g.
Proof.
  intros M. revert j. induction fuel as [|fuel IH]; intros j L; [lia|].
  rewrite for_alien_S.
  destruct (nth_error (Game.alien_list g) j) as [alien|] eqn:N; [|reflexivity].
  assert (j < length (Game.alien_list g))%nat
    by (apply nth_error_Some; congruence).
  fold (overlap bullet alien). rewrite (M alien (nth_error_In _ _ N)).
  apply IH. lia.
Qed.

Lemma for_bullet_miss fuel i g :
  (forall b a, In b (Game.bullet_list g) -> In a (Game.alien_list g) ->
               overlap b a = false) ->
  (length (Game.bullet_list g) - i < fuel)%nat ->
  Game.for_bullet fuel i g = Done g.
Proof.
  intros M. revert i. induction fuel as [|fuel IH]; intros i L; [lia|].
  rewrite for_bullet_S.
  destruct (nth_error (Game.bullet_list g) i) as [bullet|] eqn:N;
    [|reflexivity].
  assert (i < length (Game.bullet_list g))%nat
    by (apply nth_error_Some; congruence).
  rewrite for_alien_miss; [|eauto using nth_error_In|lia].
  cbn [bind]. apply IH. lia.
Qed.

Lemma update_logic_misses (g : Game.t) (event_list : list Event) :
  (forall b a, In b (Game.bullet_list g) -> In a (Game.alien_list g) ->
     overlap (Bullet.update b event_list) (Alien.update a event_list)
       = false) ->
  Game.update_logic g event_list = Done (moved g event_list).
Proof.
  intros M. rewrite update_logic_moved. unfold Game.check_collisions.
  apply for_bullet_miss; [|lia].
  intros b' a' Hb Ha. cbn [moved Game.bullet_list Game.alien_list] in Hb, Ha.
  apply in_map_iff in Hb as (b & <- & Hb).
  apply in_map_iff in Ha as (a & <- & Ha). auto.
Qed.

(** X1: in a state of distinct objects, a tick in which no updated bullet
    overlaps any updated alien removes nothing.  [update_logic] does not
    raise ValueError, and when it returns, the state is the one with the
    player, the aliens and the bullets updated and both lists otherwise as
    they were (so also whenever there is no alien, or no bullet). *)
Theorem no_overlap_nothing_removed (g : Game.t) (event_list : list Event) :
  wf g ->
  (forall b a, In b (Game.bullet_list g) -> In a (Game.alien_list g) ->
     overlap (Bullet.update b event_list) (Alien.update a event_list)
       = false) ->
  Game.update_logic g event_list <> Raised ValueError /\
  forall g', Game.update_logic g event_list = Done g' ->
             g' = moved g event_list.
Proof.
  intros _ M. rewrite (update_logic_misses g event_list M).
  split; [discriminate|]. intros g' H. now injection H as <-.
Qed.

Lemma no_overlap_nothing_removed_witness :
  match Game.update_logic with_stray [KEYDOWN K_LEFT] with
  | Done g' => g' = moved with_stray [KEYDOWN K_LEFT]
  | _ => False
  end.
Proof.
  destruct (no_overlap_nothing_removed with_stray [KEYDOWN K_LEFT])
    as [_ H].
  - unfold wf. simpl. repeat split; repeat constructor; intros [].
  - intros b a [<-|[]] [<-|[]]. reflexivity.
  - destruct (Game.update_logic with_stray [KEYDOWN K_LEFT]) as [g'| |] eqn:E;
      [now apply H|vm_compute in E; discriminate E ..].
Defined.

(** Every hit takes one bullet and one alien. *)
Lemma for_bullet_pairs fuel i g g' :
  Game.for_bullet fuel i g = Done g' ->
  (length (Game.alien_list g') + length (Game.bullet_list g)
   = length (Game.alien_list g) + length (Game.bullet_list g'))%nat.
Proof.
  intros H.
  apply (for_bullet_rule (fun s =>
    (length (Game.alien_list s) + length (Game.bullet_list g)
     = length (Game.alien_list g) + length (Game.bullet_list s))%nat))
    in H; auto.
  intros _ bullet s alien bl al _ _ E _ _ RB RA. simpl.
  apply list_remove_length in RA, RB. lia.
Qed.

(** X2: in a state of distinct objects, when [update_logic] returns, the
    player is the updated player, neither list has grown, the list of
    aliens and the list of bullets have lost the same number of objects
    (every hit removes one of each), and whatever is left is the update of
    an object that was there: nothing is added, nothing else is changed. *)
Theorem hits_remove_pairs (g g' : Game.t) (event_list : list Event) :
  wf g ->
  Game.update_logic g event_list = Done g' ->
  Game.player g' = Player.update (Game.player g) event_list /\
  Game.background g' = Game.background g /\
  Game.next_id g' = Game.next_id g /\
  (length (Game.alien_list g') <= length (Game.alien_list g))%nat /\
  (length (Game.bullet_list g') <= length (Game.bullet_list g))%nat /\
  (length (Game.alien_list g') + length (Game.bullet_list g)
   = length (Game.alien_list g) + length (Game.bullet_list g'))%nat /\
  (forall a', In a' (Game.alien_list g') ->
     exists a, In a (Game.alien_list g) /\ a' = Alien.update a event_list) /\
  (forall b', In b' (Game.bullet_list g') ->
     exists b, In b (Game.bullet_list g) /\ b' = Bullet.update b event_list).
Proof.
  intros _ H. rewrite update_logic_moved in H.
  unfold Game.check_collisions in H.
  pose proof (for_bullet_pairs _ _ _ _ H) as P.
  apply for_bullet_frame in H.
  destruct H as (Hp & Hb & Hn & Ia & Ib & La & Lb).
  cbn [moved Game.player Game.alien_list Game.bullet_list Game.background
       Game.next_id] in *.
  rewrite !length_map in *.
  repeat split; auto.
  - intros a' Ha'. apply Ia, in_map_iff in Ha' as (a & <- & Ha). eauto.
  - intros b' Hb'. apply Ib, in_map_iff in Hb' as (b & <- & Hb'). eauto.
Qed.

Lemma hits_remove_pairs_witness :
  exists g',
    Game.update_logic face_to_face [] = Done g' /\
    (length (Game.alien_list g') + length (Game.bullet_list face_to_face)
     = length (Game.alien_list face_to_face)
       + length (Game.bullet_list g'))%nat.
Proof.
  destruct (Game.update_logic face_to_face []) as [g'| |] eqn:E;
    try discriminate E.
  exists g'. split; [reflexivity|].
  destruct (hits_remove_pairs face_to_face g' []) as (_ & _ & _ & _ & _ & P & _).
  - unfold wf. simpl. repeat split; repeat constructor; intros [].
  - exact E.
  - exact P.
Defined.

Lemma list_remove_at {A : Type} (same : A -> A -> bool) (x y : A)
  (pre post : list A) :
  Forall (fun z => same z x = false) pre -> same y x = true ->
  list_remove same x (pre ++ y :: post) = Done (pre ++ post).
Proof.
  intros F E. induction F as [|z pre Hz _ IH]; simpl.
  - now rewrite E.
  - now rewrite Hz, IH.
Qed.

Lemma NoDup_ids_before (pre post : list Bullet.t) (b : Bullet.t) :
  NoDup (map Bullet.id (pre ++ b :: post)) ->
  Forall (fun z => Bullet.same z b = false) pre.
Proof.
  intros ND. apply Forall_forall. intros z Hz.
  unfold Bullet.same. apply Nat.eqb_neq. intros E.
  rewrite map_app in ND. simpl in ND. apply NoDup_remove_2 in ND.
  apply ND. apply in_or_app. left. rewrite <- E. now apply in_map.
Qed.

(** The outer loop on a single alien [a]: the bullets before index [i]
    are done, those in [todo] miss, [b] is the first one that hits. *)
Lemma for_bullet_single (g : Game.t) (a : Alien.t) (b : Bullet.t)
  (post : list Bullet.t) :
  Game.alien_list g = [a] -> overlap b a = true ->
  forall todo done fuel,
    Game.bullet_list g = done ++ todo ++ b :: post ->
    NoDup (map Bullet.id (Game.bullet_list g)) ->
    Forall (fun c => overlap c a = false) todo ->
    (length (todo ++ b :: post) < fuel)%nat ->
    Game.for_bullet fuel (length done) g
    = Done (hit g (done ++ todo ++ post) []).
Proof.
  intros Ha Hit. induction todo as [|c todo IH]; intros done fuel Hb ND M L.
  - destruct fuel as [|fuel]; [simpl in L; lia|].
    cbn [app] in *. rewrite for_bullet_S, Hb.
    rewrite nth_error_app2, Nat.sub_diag by lia. cbn [nth_error].
    rewrite Ha. cbn [length]. rewrite for_alien_S, Ha. cbn [nth_error].
    fold (overlap b a). rewrite Hit, Hb.
    rewrite list_remove_at;
      [|rewrite Hb in ND; eapply NoDup_ids_before; eauto
       |apply Bullet_same_refl].
    cbn [bind list_remove]. rewrite Alien_same_refl. cbn [bind].
    rewrite for_alien_S. cbn [hit Game.set_alien_list Game.alien_list
      nth_error bind].
    apply for_bullet_miss.
    + intros ? ? _ [].
    + unfold hit, Game.set_alien_list, Game.set_bullet_list.
      cbn [Game.bullet_list app length] in *. rewrite length_app. lia.
  - destruct fuel as [|fuel]; [simpl in L; lia|].
    inversion M as [|? ? Mc M']; subst.
    rewrite for_bullet_S, Hb.
    rewrite nth_error_app2, Nat.sub_diag by lia. cbn [app nth_error].
    rewrite for_alien_miss.
    + cbn [bind].
      replace (S (length done)) with (length (done ++ [c]))
        by (rewrite length_app; simpl; lia).
      replace (done ++ c :: todo ++ post)
        with ((done ++ [c]) ++ todo ++ post)
        by (now rewrite <- app_assoc).
      apply IH; auto.
      * rewrite Hb, <- app_assoc. reflexivity.
      * cbn [app length] in L. lia.
    + rewrite Ha. intros ? [<-|[]]. exact Mc.
    + lia.
Qed.

(** X3: the collision check of the game as it is played, with its single
    alien.  If [b] is the first bullet of the list whose updated rectangle
    overlaps the updated alien, [update_logic] removes exactly [b] and the
    alien: every other bullet, also one that overlaps the alien as well,
    stays in the list, updated and in its place. *)
Theorem single_alien_first_hit (g : Game.t) (event_list : list Event)
  (a : Alien.t) (b : Bullet.t) (pre post : list Bullet.t) :
  wf g ->
  Game.alien_list g = [a] ->
  Game.bullet_list g = pre ++ b :: post ->
  Forall (fun c => overlap (Bullet.update c event_list)
                           (Alien.update a event_list) = false) pre ->
  overlap (Bullet.update b event_list) (Alien.update a event_list) = true ->
  Game.update_logic g event_list
  = Done {| Game.player := Player.update (Game.player g) event_list;
            Game.alien_list := [];
            Game.bullet_list :=
              map (fun bullet => Bullet.update bullet event_list)
                  (pre ++ post);
            Game.background := Game.background g;
            Game.next_id := Game.next_id g |}.
Proof.
  intros (_ & ND & _) Ha Hb M Hit.
  rewrite update_logic_moved. unfold Game.check_collisions.
  set (upd := fun bullet : Bullet.t => Bullet.update bullet event_list).
  rewrite (for_bullet_single (moved g event_list)
             (Alien.update a event_list) (upd b) (map upd post)
             ltac:(cbn; now rewrite Ha) Hit (map upd pre) [] _).
  - unfold hit. cbn. now rewrite map_app.
  - cbn. rewrite Hb, map_app. reflexivity.
  - cbn. now rewrite map_map.
  - apply Forall_forall. intros c' Hc'.
    apply in_map_iff in Hc' as (c & <- & Hc).
    rewrite Forall_forall in M. now apply M.
  - cbn [moved Game.bullet_list]. rewrite Hb.
    rewrite ?length_map, ?length_app. cbn [length].
    rewrite ?length_map. lia.
Qed.

Lemma single_alien_first_hit_witness :
  Game.bullet_list
    match Game.update_logic
            (game_of [alien_at 0 100 500]
                     [bullet_at 1 300 50; bullet_at 2 100 500;
                      bullet_at 3 100 500] 4) [] with
    | Done g' => g'
    | _ => Game.init pg0
    end
  = [bullet_at 1 300 40; bullet_at 3 100 490].
Proof.
  rewrite (single_alien_first_hit
             (game_of [alien_at 0 100 500]
                [bullet_at 1 300 50; bullet_at 2 100 500;
                 bullet_at 3 100 500] 4)
             [] (alien_at 0 100 500) (bullet_at 2 100 500)
             [bullet_at 1 300 50] [bullet_at 3 100 500]).
  - reflexivity.
  - unfold wf. simpl. repeat split.
    + repeat constructor. intros [].
    + repeat constructor; simpl; intuition discriminate.
    + repeat constructor.
  - reflexivity.
  - reflexivity.
  - repeat constructor.
  - reflexivity.
Defined.

(** X4: after a hit the outer loop skips the bullet that follows the one
    it removed.  With bullets [b0; b1] and aliens [a0; a1], when [b0] hits
    [a0] the pass removes that pair and ends: [b1] is compared with no
    alien and stays, and so does [a1], even when [b1] overlaps [a1]. *)
Theorem bullet_after_a_hit_is_skipped (p : Player.t) (bg : Surface) (n : nat)
  (b0 b1 : Bullet.t) (a0 a1 : Alien.t) :
  overlap b0 a0 = true ->
  Game.check_collisions
    {| Game.player := p; Game.alien_list := [a0; a1];
       Game.bullet_list := [b0; b1]; Game.background := bg;
       Game.next_id := n |}
  = Done {| Game.player := p; Game.alien_list := [a1];
            Game.bullet_list := [b1]; Game.background := bg;
            Game.next_id := n |}.
Proof.
  intros C. unfold overlap in C. unfold Game.check_collisions.
  loop_step. loop_step.
  rewrite C, Bullet_same_refl, Alien_same_refl. loop_exit.
  loop_step. loop_step. reflexivity.
Qed.

Lemma bullet_after_a_hit_is_skipped_witness :
  overlap (bullet_at 3 200 100) (alien_at 1 200 100) = true /\
  Game.check_collisions
    (game_of [alien_at 0 100 100; alien_at 1 200 100]
             [bullet_at 2 100 100; bullet_at 3 200 100] 4)
  = Done (game_of [alien_at 1 200 100] [bullet_at 3 200 100] 4).
Proof.
  split; [reflexivity|].
  apply (bullet_after_a_hit_is_skipped (Player.init pg0) img0 4
           (bullet_at 2 100 100) (bullet_at 3 200 100)
           (alien_at 0 100 100) (alien_at 1 200 100)).
  reflexivity.
Defined.

(** X5: with at most two (distinct) aliens in the list, the removals of
    the collision check cannot fail: [update_logic] does not raise
    ValueError, and when it returns neither list has grown.  (A third
    alien is what makes the ValueError possible.) *)
Theorem up_to_two_aliens_no_ValueError (g : Game.t)
  (event_list : list Event) :
  wf g ->
  (length (Game.alien_list g) <= 2)%nat ->
  Game.update_logic g event_list <> Raised ValueError /\
  forall g', Game.update_logic g event_list = Done g' ->
    (length (Game.alien_list g') <= length (Game.alien_list g))%nat /\
    (length (Game.bullet_list g') <= length (Game.bullet_list g))%nat.
Proof.
  intros _ L. destruct (update_logic_two g event_list L) as (g1 & U & La).
  rewrite U. split; [discriminate|]. intros g' H. injection H as <-.
  split; [exact La|].
  rewrite update_logic_moved in U. apply for_bullet_frame in U.
  cbn [moved Game.bullet_list] in U. rewrite length_map in U. tauto.
Qed.

Lemma up_to_two_aliens_no_ValueError_witness :
  Game.update_logic
    (game_of [alien_at 0 100 100; alien_at 1 100 100]
             [bullet_at 2 100 110] 3) [] <> Raised ValueError.
Proof.
  apply (up_to_two_aliens_no_ValueError
           (game_of [alien_at 0 100 100; alien_at 1 100 100]
                    [bullet_at 2 100 110] 3) []).
  - unfold wf. simpl. repeat split.
    + repeat constructor; simpl; intuition discriminate.
    + repeat constructor. intros [].
    + repeat constructor.
  - simpl. lia.
Defined.

(** ** Runs of [main_loop] *)

Lemma iteration_after_events pg g event_list :
  Game.iteration pg g event_list =
  t <- Game.update_logic g event_list ;;
  Done (after_events pg t event_list, negb (quits event_list),
        ([ClockTick 60; EventGet] ++ Game.update_display t)
          ++ repeat (ImageLoad "Bullet.png") (fires event_list)).
Proof. apply iteration_eq. Qed.

(** Invariant rule of [main_loop]: what every completed tick keeps holds
    of the state the run has reached. *)
Lemma main_loop_rule pg (P : Game.t -> Prop) :
  (forall g event_list t,
      P g -> Game.update_logic g event_list = Done t ->
      P (after_events pg t event_list)) ->
  forall input g calls,
    P g ->
    match Game.main_loop_from pg g calls input with
    | Game.Running g' _ => P g'
    | Game.Stopped g' _ => P g'
    | _ => True
    end.
Proof.
  intros Hstep. induction input as [|event_list input IH]; intros g calls HP.
  - exact HP.
  - cbn [Game.main_loop_from]. rewrite iteration_after_events.
    destruct (Game.update_logic g event_list) as [t| |] eqn:U; cbn [bind];
      auto.
    destruct (negb (quits event_list)); [apply IH|]; eauto.
Qed.

Lemma fires_app l1 l2 : fires (l1 ++ l2) = (fires l1 + fires l2)%nat.
Proof. unfold fires. now rewrite filter_app, length_app. Qed.

(** With at most two aliens no tick of a run raises ValueError. *)
Lemma run_no_ValueError pg input :
  forall g calls,
    (length (Game.alien_list g) <= 2)%nat ->
    match Game.main_loop_from pg g calls input with
    | Game.Crashed ValueError _ => False
    | Game.Stuck => False
    | _ => True
    end.
Proof.
  induction input as [|event_list input IH]; intros g calls L2.
  - exact I.
  - cbn [Game.main_loop_from]. rewrite iteration_after_events.
    destruct (update_logic_two g event_list L2) as (t & -> & Lt).
    cbn [bind]. destruct (negb (quits event_list)); [|exact I].
    apply IH. cbn [after_events Game.alien_list]. lia.
Qed.

(** X6: the removals of the collision check never fail in a game started
    by [Game.__init__].  Whatever event batches arrive, no run of
    [main_loop] from a new game ends in a ValueError; every state it
    reaches is well formed (distinct objects, bullets made by
    [Bullet.__init__] with velocity 10), and the only alien there can be
    is the one [__init__] created. *)
Theorem new_game_never_raises_ValueError (pg : pygame)
  (input : list (list Event)) :
  match Game.main_loop pg (Game.init pg) input with
  | Game.Running g' _ | Game.Stopped g' _ =>
      wf g' /\
      (length (Game.alien_list g') <= 1)%nat /\
      Forall (fun a => Alien.id a = 0%nat) (Game.alien_list g')
  | Game.Crashed ValueError _ => False
  | Game.Stuck => False
  end.
Proof.
  unfold Game.main_loop.
  pose proof (run_no_ValueError pg input (Game.init pg) []
                ltac:(simpl; lia)) as R.
  pose proof (main_loop_rule pg (fun s =>
    wf s /\ (length (Game.alien_list s) <= 1)%nat /\
    Forall (fun a => Alien.id a = 0%nat) (Game.alien_list s))) as M.
  specialize (M ltac:(
    intros g event_list t (W & L & F) U;
    pose proof (wf_after_tick pg g event_list t W U) as W';
    split; [exact W'|];
    rewrite update_logic_moved in U; apply for_bullet_frame in U;
    destruct U as (_ & _ & _ & Ia & _ & La & _);
    cbn [after_events moved Game.alien_list] in *;
    rewrite length_map in La; split; [lia|];
    apply Forall_forall; intros a' Ha';
    apply Ia, in_map_iff in Ha' as (a & <- & Ha);
    rewrite Alien_update_id; rewrite Forall_forall in F; auto)).
  specialize (M input (Game.init pg) []
    ltac:(split; [apply wf_init|split; [simpl; lia|repeat constructor]])).
  destruct (Game.main_loop_from pg (Game.init pg) [] input) as [| |[]|]; auto.
Qed.

(** X7: aliens are never created and bullets only by fire key-downs.
    After any run the list of aliens is no longer than before, every
    alien in it is one of the original objects, and the list of bullets
    has grown by at most the number of fire key-downs of the input. *)
Theorem run_adds_only_fired_bullets (pg : pygame) (g : Game.t)
  (input : list (list Event)) :
  match Game.main_loop pg g input with
  | Game.Running g' _ | Game.Stopped g' _ =>
      (length (Game.alien_list g') <= length (Game.alien_list g))%nat /\
      (forall a', In a' (Game.alien_list g') ->
         exists a, In a (Game.alien_list g) /\ Alien.id a' = Alien.id a) /\
      (length (Game.bullet_list g')
       <= length (Game.bullet_list g) + total_fires input)%nat
  | Game.Crashed _ _ | Game.Stuck => True
  end.
Proof.
  unfold Game.main_loop. generalize (@nil Call) as calls. revert g.
  induction input as [|event_list input IH]; intros g calls.
  - simpl. repeat split; eauto. lia.
  - cbn [Game.main_loop_from]. rewrite iteration_after_events.
    destruct (Game.update_logic g event_list) as [t| |] eqn:U; cbn [bind];
      auto.
    rewrite update_logic_moved in U. apply for_bullet_frame in U.
    destruct U as (_ & _ & _ & Ia & _ & La & Lb).
    cbn [moved Game.alien_list Game.bullet_list] in *.
    rewrite length_map in La, Lb.
    assert (Hids : forall a', In a' (Game.alien_list t) ->
      exists a, In a (Game.alien_list g) /\ Alien.id a' = Alien.id a).
    { intros a' Ha'. apply Ia, in_map_iff in Ha' as (a & <- & Ha).
      exists a. split; [exact Ha|apply Alien_update_id]. }
    unfold total_fires. cbn [concat]. rewrite fires_app.
    fold (total_fires input).
    destruct (negb (quits event_list)).
    + specialize (IH (after_events pg t event_list)
                     (calls ++
                      ([ClockTick 60; EventGet] ++ Game.update_display t)
                      ++ repeat (ImageLoad "Bullet.png") (fires event_list))).
      destruct (Game.main_loop_from pg (after_events pg t event_list) _ input)
        as [g' c|g' c|e c|]; auto;
        destruct IH as (A1 & A2 & A3);
        cbn [after_events Game.alien_list Game.bullet_list] in *;
        rewrite length_app, spawned_length in A3;
        (repeat split; [lia| |lia]);
        intros a' Ha'; destruct (A2 a' Ha') as (a1 & H1 & E1);
        destruct (Hids a1 H1) as (a & H & E); exists a; split; congruence.
    + cbn [after_events Game.alien_list Game.bullet_list].
      rewrite length_app, spawned_length. repeat split; auto; lia.
Qed.

Lemma update_logic_no_alien g event_list :
  Game.alien_list g = [] ->
  Game.update_logic g event_list = Done (moved g event_list).
Proof.
  intros Ha. apply update_logic_misses. rewrite Ha. intros ? ? _ [].
Qed.

(** X8: once no alien is left no bullet is ever removed.  In a run from
    a state of distinct objects without aliens, while [main_loop] is
    running the list holds every earlier bullet and one more per fire
    key-down of the input, and when it has stopped the list is no shorter
    than at the start; the list of aliens stays empty. *)
Theorem bullets_pile_up_without_aliens (pg : pygame) (g : Game.t)
  (input : list (list Event)) :
  wf g ->
  Game.alien_list g = [] ->
  match Game.main_loop pg g input with
  | Game.Running g' _ =>
      Game.alien_list g' = [] /\
      length (Game.bullet_list g')
      = (length (Game.bullet_list g) + total_fires input)%nat
  | Game.Stopped g' _ =>
      Game.alien_list g' = [] /\
      (length (Game.bullet_list g) <= length (Game.bullet_list g'))%nat
  | Game.Crashed _ _ => True
  | Game.Stuck => False
  end.
Proof.
  intros _. unfold Game.main_loop. generalize (@nil Call) as calls. revert g.
  induction input as [|event_list input IH]; intros g calls Ha.
  - simpl. split; [exact Ha|]. unfold total_fires, fires. simpl. lia.
  - cbn [Game.main_loop_from]. rewrite iteration_after_events.
    rewrite update_logic_no_alien by exact Ha. cbn [bind].
    unfold total_fires. cbn [concat]. rewrite fires_app.
    fold (total_fires input).
    destruct (negb (quits event_list)).
    + specialize (IH (after_events pg (moved g event_list) event_list)
                     (calls ++
                      ([ClockTick 60; EventGet]
                       ++ Game.update_display (moved g event_list))
                      ++ repeat (ImageLoad "Bullet.png") (fires event_list))
                     ltac:(cbn; now rewrite Ha)).
      destruct (Game.main_loop_from pg _ _ input) as [g' c|g' c|e c|]; auto;
        destruct IH as (A1 & A2);
        cbn [after_events moved Game.bullet_list] in A2;
        rewrite length_app, spawned_length, length_map in A2;
        split; auto; lia.
    + cbn [after_events moved Game.alien_list Game.bullet_list].
      rewrite Ha, length_app, length_map. split; [reflexivity|lia].
Qed.

Lemma bullets_pile_up_without_aliens_witness :
  exists g' calls,
    Game.main_loop pg0 (game_of [] [bullet_at 0 100 500] 1)
      [[KEYDOWN K_SPACE; KEYDOWN K_SPACE]; []; [KEYDOWN K_SPACE]]
    = Game.Running g' calls /\
    length (Game.bullet_list g') = 4%nat.
Proof.
  pose proof (bullets_pile_up_without_aliens pg0
                (game_of [] [bullet_at 0 100 500] 1)
                [[KEYDOWN K_SPACE; KEYDOWN K_SPACE]; []; [KEYDOWN K_SPACE]]
                ltac:(unfold wf; simpl; repeat split; repeat constructor;
                      intros [])
                eq_refl) as H.
  destruct (Game.main_loop pg0 _ _) as [g' c|g' c|e c|] eqn:E.
  - vm_compute in E. discriminate E.
  - exists g', c. split; [reflexivity|]. destruct H as [_ H]. exact H.
  - vm_compute in E. discriminate E.
  - destruct H.
Defined.

(** X9: the frame of a tick shows every bullet that came through the
    collision pass 10 px above where the tick found it; so a bullet
    spawned at row 500 by one tick is drawn at row 490 by the next one,
    at the x the player had when it fired, unless it hits an alien
    there. *)
Theorem fired_bullet_is_drawn_next_tick (pg : pygame) (g g1 g2 : Game.t)
  (event_list next_list : list Event) (r1 r2 : bool) (c1 c2 : list Call)
  (i : nat) :
  wf g ->
  (0 < fires event_list)%nat ->
  Game.iteration pg g event_list = Done (g1, r1, c1) ->
  Game.iteration pg g1 next_list = Done (g2, r2, c2) ->
  (forall a, In a (Game.alien_list g1) ->
     overlap (Bullet.init pg i (Player.x (Game.player g1)) 490)
             (Alien.update a next_list) = false) ->
  In (Blit (image_load pg "Bullet.png") (Player.x (Game.player g1)) 490) c2.
Proof.
  intros W F I1 I2 M.
  pose proof (wf_iteration _ _ _ _ _ _ W I1) as W1.
  rewrite iteration_after_events in I1, I2.
  destruct (Game.update_logic g event_list) as [t1| |] eqn:U1;
    cbn [bind] in I1; try discriminate.
  destruct (Game.update_logic g1 next_list) as [t2| |] eqn:U2;
    cbn [bind] in I2; try discriminate.
  injection I1 as <- _ _. injection I2 as _ _ <-.
  cbn [after_events Game.player Game.next_id Game.alien_list] in *.
  set (b := Bullet.init pg (Game.next_id t1) (Player.x (Game.player t1)) 500).
  assert (Hb : In b (Game.bullet_list (after_events pg t1 event_list))).
  { cbn [after_events Game.bullet_list]. apply in_or_app. right.
    unfold spawned. apply in_map_iff. exists 0%nat.
    split; [unfold b; now rewrite Nat.add_0_r|]. apply in_seq. lia. }
  apply (update_logic_keeps _ next_list t2 b W1 Hb) in U2.
  - cbn [In]. do 4 right. rewrite !in_app_iff. left. right. left.
    apply in_map_iff. exists (Bullet.update b next_list). split; [|exact U2].
    reflexivity.
  - intros a Ha. apply (M a Ha).
Qed.

Lemma fired_bullet_is_drawn_next_tick_witness :
  In (Blit (image_load pg0 "Bullet.png") 100 490)
     match Game.main_loop pg0 (Game.init pg0) [[KEYDOWN K_SPACE]; []] with
     | Game.Running _ calls => calls
     | _ => []
     end.
Proof.
  destruct (Game.iteration pg0 (Game.init pg0) [KEYDOWN K_SPACE])
    as [[[g1 r1] c1]| |] eqn:E1; try discriminate E1.
  destruct (Game.iteration pg0 g1 []) as [[[g2 r2] c2]| |] eqn:E2;
    [|vm_compute in E1; injection E1 as <- _ _; discriminate E2 ..].
  pose proof (fired_bullet_is_drawn_next_tick pg0 (Game.init pg0) g1 g2
                [KEYDOWN K_SPACE] [] r1 r2 c1 c2 0
                ltac:(unfold wf; simpl; repeat split; repeat constructor;
                      intros [])
                ltac:(vm_compute; lia) E1 E2) as H.
  vm_compute in E1. injection E1 as <- <- <-.
  vm_compute in E2. injection E2 as <- <- <-.
  specialize (H ltac:(intros a [<-|[]]; reflexivity)).
  vm_compute in H |- *. tauto.
Defined.

(** ** Events within one batch *)

Lemma sum_delta_perm l l' : Permutation l l' -> sum_delta l = sum_delta l'.
Proof.
  unfold sum_delta. induction 1; cbn [map fold_right]; lia.
Qed.

Lemma fires_perm l l' : Permutation l l' -> fires l = fires l'.
Proof.
  unfold fires. induction 1 as [|e l l' _ IH|e1 e2 l|l l' l'' _ IH1 _ IH2];
    cbn [filter]; auto.
  - destruct (is_fire e); cbn [length]; congruence.
  - destruct (is_fire e1), (is_fire e2); reflexivity.
  - congruence.
Qed.

Lemma quits_perm l l' : Permutation l l' -> quits l = quits l'.
Proof.
  unfold quits. induction 1 as [|e l l' _ IH|e1 e2 l|l l' l'' _ IH1 _ IH2];
    cbn [existsb]; auto.
  - now rewrite IH.
  - destruct (is_quit e1), (is_quit e2); reflexivity.
  - congruence.
Qed.

(** X10: the order of the events inside one batch does not matter.  A
    tick on a reordered batch returns the same state, the same [running]
    and makes the same calls; in particular a quit signal does not cut the
    batch short: fire key-downs after it still spawn their bullets. *)
Theorem event_order_in_a_batch_is_irrelevant (pg : pygame) (g : Game.t)
  (event_list event_list' : list Event) :
  Permutation event_list event_list' ->
  Player.update (Game.player g) event_list
    = Player.update (Game.player g) event_list' /\
  Game.update_logic g event_list = Game.update_logic g event_list' /\
  Game.iteration pg g event_list = Game.iteration pg g event_list'.
Proof.
  intros P.
  assert (HP : Player.update (Game.player g) event_list
               = Player.update (Game.player g) event_list')
    by (rewrite !Player_update_spec, (sum_delta_perm _ _ P); reflexivity).
  assert (HU : Game.update_logic g event_list
               = Game.update_logic g event_list').
  { rewrite !update_logic_moved. f_equal. unfold moved. now rewrite HP. }
  repeat split; auto.
  rewrite !iteration_after_events, HU. unfold after_events.
  rewrite (fires_perm _ _ P), (quits_perm _ _ P). reflexivity.
Qed.

Lemma event_order_in_a_batch_is_irrelevant_witness :
  Game.iteration pg0 (Game.init pg0) [QUIT; KEYDOWN K_SPACE; KEYDOWN K_LEFT]
  = Game.iteration pg0 (Game.init pg0) [KEYDOWN K_LEFT; KEYDOWN K_SPACE; QUIT].
Proof.
  apply (event_order_in_a_batch_is_irrelevant pg0 (Game.init pg0)
           [QUIT; KEYDOWN K_SPACE; KEYDOWN K_LEFT]
           [KEYDOWN K_LEFT; KEYDOWN K_SPACE; QUIT]).
  apply (Permutation_rev [QUIT; KEYDOWN K_SPACE; KEYDOWN K_LEFT]).
Defined.

(** ** The alien's path *)

Lemma Alien_update_limits a event_list :
  Alien.left_limit (Alien.update a event_list) = Alien.left_limit a /\
  Alien.right_limit (Alien.update a event_list) = Alien.right_limit a /\
  Z.abs (Alien.speed (Alien.update a event_list)) = Z.abs (Alien.speed a) /\
  Alien.y a <= Alien.y (Alien.update a event_list).
Proof.
  rewrite Alien_update_spec. cbv zeta.
  cbn [Alien.left_limit Alien.right_limit Alien.speed Alien.y].
  destruct (_ || _); repeat split; auto; lia.
Qed.

Lemma near_limits_step a event_list :
  Z.abs (Alien.speed a) <= Alien.right_limit a - Alien.left_limit a ->
  near_limits a -> near_limits (Alien.update a event_list).
Proof.
  intros Hs N. rewrite Alien_update_spec. unfold near_limits in *.
  cbv zeta in *.
  cbn [Alien.x Alien.speed Alien.left_limit Alien.right_limit].
  destruct ((Alien.x a + Alien.speed a <? Alien.left_limit a)
            || (Alien.x a + Alien.speed a >? Alien.right_limit a)) eqn:O.
  - apply orb_true_iff in O. rewrite Z.ltb_lt, Z.gtb_ltb, Z.ltb_lt in O. lia.
  - apply orb_false_iff in O. rewrite Z.ltb_ge, Z.gtb_ltb, Z.ltb_ge in O. lia.
Qed.

(** X11: an alien that starts between its limits, with a speed no larger
    than the distance between them, never gets farther outside than one
    step: after any number of updates its x is within [speed] (in absolute
    value) of the interval of the limits; the size of its speed and its
    limits never change, and it never moves up. *)
Theorem alien_overshoots_by_at_most_one_step (a : Alien.t)
  (batches : list (list Event)) :
  Alien.left_limit a <= Alien.x a <= Alien.right_limit a ->
  Z.abs (Alien.speed a) <= Alien.right_limit a - Alien.left_limit a ->
  let a' := fold_left Alien.update batches a in
  Alien.left_limit a - Z.abs (Alien.speed a) <= Alien.x a'
    <= Alien.right_limit a + Z.abs (Alien.speed a) /\
  Z.abs (Alien.speed a') = Z.abs (Alien.speed a) /\
  Alien.left_limit a' = Alien.left_limit a /\
  Alien.right_limit a' = Alien.right_limit a /\
  Alien.y a <= Alien.y a'.
Proof.
  intros Hx Hs. cbv zeta.
  assert (G : forall b,
    near_limits b ->
    Z.abs (Alien.speed b) <= Alien.right_limit b - Alien.left_limit b ->
    let b' := fold_left Alien.update batches b in
    near_limits b' /\
    Z.abs (Alien.speed b') = Z.abs (Alien.speed b) /\
    Alien.left_limit b' = Alien.left_limit b /\
    Alien.right_limit b' = Alien.right_limit b /\
    Alien.y b <= Alien.y b').
  { induction batches as [|event_list batches IH]; intros b N S; cbv zeta.
    - cbn [fold_left]. repeat split; auto. lia.
    - cbn [fold_left].
      destruct (Alien_update_limits b event_list) as (E1 & E2 & E3 & E4).
      destruct (IH (Alien.update b event_list)) as (N' & F1 & F2 & F3 & F4).
      + now apply near_limits_step.
      + rewrite E1, E2, E3. exact S.
      + repeat split; auto; try congruence. lia. }
  destruct (G a) as (N & F1 & F2 & F3 & F4); [left; exact Hx|exact Hs|].
  repeat split; auto; unfold near_limits in N; cbv zeta in N; lia.
Qed.

Lemma alien_overshoots_by_at_most_one_step_witness :
  45 <= Alien.x (fold_left Alien.update (repeat [] 200) (alien_at 0 100 100))
     <= 505.
Proof.
  destruct (alien_overshoots_by_at_most_one_step (alien_at 0 100 100)
              (repeat [] 200)) as (H & _).
  - simpl. lia.
  - simpl. lia.
  - exact H.
Defined.

(** X12: [Alien.__init__] takes any start position, and an alien that
    starts farther outside its limits than its speed never comes back:
    every update finds it outside, so it turns on every tick, swings
    between its start x and one step from it, and goes down 10 px per
    tick. *)
Theorem alien_far_outside_never_returns (a : Alien.t)
  (batches : list (list Event)) :
  Alien.right_limit a + Z.abs (Alien.speed a) < Alien.x a \/
  Alien.x a < Alien.left_limit a - Z.abs (Alien.speed a) ->
  let a' := fold_left Alien.update batches a in
  (Alien.x a' = Alien.x a /\ Alien.speed a' = Alien.speed a \/
   Alien.x a' = Alien.x a + Alien.speed a /\
   Alien.speed a' = - Alien.speed a) /\
  (Alien.x a' < Alien.left_limit a \/ Alien.right_limit a < Alien.x a') /\
  Alien.y a' = Alien.y a + 10 * Z.of_nat (length batches).
Proof.
  intros Far. cbv zeta.
  induction batches as [|event_list batches IH] using rev_ind.
  - cbn [fold_left length]. repeat split; auto; lia.
  - rewrite fold_left_app, length_app. cbn [fold_left length].
    destruct IH as (Sw & Out & Hy).
    set (b := fold_left Alien.update batches a) in *.
    assert (HL : Alien.left_limit b = Alien.left_limit a /\
                 Alien.right_limit b = Alien.right_limit a).
    { unfold b. clear. induction batches as [|e l IHl] using rev_ind;
        [auto|]. rewrite fold_left_app. cbn [fold_left].
      destruct (Alien_update_limits (fold_left Alien.update l a) e)
        as (E1 & E2 & _). destruct IHl. split; congruence. }
    destruct HL as [HLl HLr].
    rewrite Alien_update_spec. cbv zeta.
    cbn [Alien.x Alien.y Alien.speed].
    rewrite HLl, HLr.
    replace ((Alien.x b + Alien.speed b <? Alien.left_limit a)
             || (Alien.x b + Alien.speed b >? Alien.right_limit a))
      with true.
    + repeat split; lia.
    + symmetry. apply orb_true_iff.
      rewrite Z.ltb_lt, Z.gtb_ltb, Z.ltb_lt. lia.
Qed.

Lemma alien_far_outside_never_returns_witness :
  Alien.y (fold_left Alien.update (repeat [] 7) (alien_at 0 1000 100)) = 170.
Proof.
  destruct (alien_far_outside_never_returns (alien_at 0 1000 100)
              (repeat [] 7)) as (_ & _ & H).
  - left. simpl. lia.
  - exact H.
Defined.

(** ** The player's path *)

Lemma sum_delta_tens l : (10 | sum_delta l).
Proof.
  unfold sum_delta. induction l as [|e l IH]; cbn [map fold_right].
  - apply Z.divide_0_r.
  - apply Z.divide_add_r; [|exact IH].
    destruct e as [[| | | |c]|[| | | |c]| |ty]; cbn [delta];
      first [apply Z.divide_0_r | now exists 1 | now exists (-1)].
Qed.

Lemma travel_tens batches :
  forall x v, (10 | x) -> (10 | v) -> (10 | travel x v batches).
Proof.
  induction batches as [|e batches IH]; intros x v Hx Hv; cbn [travel].
  - exact Hx.
  - cbv zeta. apply IH; repeat apply Z.divide_add_r;
      auto using sum_delta_tens.
Qed.

(** X13: the player never leaves its row.  From [Player.__init__], after
    any event batches, y is still 500 and the vertical velocity still 0;
    the horizontal velocity and position stay multiples of 10, and the
    velocity is the sum of the deltas of all arrow-key events so far. *)
Theorem player_stays_on_its_row (pg : pygame) (batches : list (list Event)) :
  let p := fold_left Player.update batches (Player.init pg) in
  Player.y p = 500 /\ Player.y_vel p = 0 /\
  Player.x_vel p = sum_delta (concat batches) /\
  (10 | Player.x_vel p) /\ (10 | Player.x p) /\
  Player._image p = image_load pg "UFO.png".
Proof.
  cbv zeta. rewrite Player_updates.
  cbn [Player.x Player.y Player.x_vel Player.y_vel Player._image Player.init].
  repeat split; try lia.
  - apply sum_delta_tens.
  - apply travel_tens; [now exists 10|apply Z.divide_0_r].
Qed.

Lemma travel_idle x v n : travel x v (repeat [] n) = x + Z.of_nat n * v.
Proof.
  revert x. induction n as [|n IH]; intros x.
  - cbn. lia.
  - cbn [repeat travel]. cbv zeta. change (sum_delta []) with 0.
    rewrite Z.add_0_r, IH. lia.
Qed.

(** X14: the player is not kept inside the window.  From rest, a key-down
    of RIGHT followed by [n] ticks without events moves the player
    10 (n + 1) px to the right, a key-down of LEFT as far to the left,
    whatever [n] is: past the 600 px of the screen, or below 0. *)
Theorem held_key_moves_player_without_bound (p : Player.t) (n : nat) :
  Player.x_vel p = 0 ->
  Player.x (fold_left Player.update ([KEYDOWN K_RIGHT] :: repeat [] n) p)
    = Player.x p + 10 * (Z.of_nat n + 1) /\
  Player.x (fold_left Player.update ([KEYDOWN K_LEFT] :: repeat [] n) p)
    = Player.x p - 10 * (Z.of_nat n + 1).
Proof.
  intros V. rewrite !Player_updates. cbn [Player.x travel]. cbv zeta.
  rewrite !travel_idle, V.
  change (sum_delta [KEYDOWN K_RIGHT]) with 10.
  change (sum_delta [KEYDOWN K_LEFT]) with (-10). lia.
Qed.

Lemma held_key_moves_player_without_bound_witness :
  Game.SCREEN_WIDTH
  < Player.x (fold_left Player.update ([KEYDOWN K_RIGHT] :: repeat [] 50)
                (Player.init pg0)).
Proof.
  destruct (held_key_moves_player_without_bound (Player.init pg0) 50 eq_refl)
    as [H _].
  rewrite H. reflexivity.
Defined.

(** ** What a run keeps *)

(** X15: the objects of a game stay distinct.  From a well-formed state
    (no object twice in a list, every bullet made by [Bullet.__init__]
    before the allocation counter) every state a run reaches is well
    formed again: removing by identity never meets two equal items, and
    every bullet still has velocity 10. *)
Theorem runs_keep_states_well_formed (pg : pygame) (g : Game.t)
  (input : list (list Event)) :
  wf g ->
  match Game.main_loop pg g input with
  | Game.Running g' _ | Game.Stopped g' _ =>
      NoDup (map Alien.id (Game.alien_list g')) /\
      NoDup (map Bullet.id (Game.bullet_list g')) /\
      Forall (fun b => (Bullet.id b < Game.next_id g')%nat /\
                       Bullet.velocity b = 10) (Game.bullet_list g')
  | Game.Crashed _ _ | Game.Stuck => True
  end.
Proof.
  intros W. unfold Game.main_loop.
  pose proof (main_loop_rule pg wf
                (fun s e t Ws U => wf_after_tick pg s e t Ws U)
                input g [] W) as H.
  destruct (Game.main_loop_from pg g [] input); auto.
Qed.

Lemma runs_keep_states_well_formed_witness :
  match Game.main_loop pg0 with_stray
          [[KEYDOWN K_SPACE]; [KEYDOWN K_SPACE]; [QUIT]] with
  | Game.Running g' _ | Game.Stopped g' _ =>
      NoDup (map Bullet.id (Game.bullet_list g'))
  | _ => True
  end.
Proof.
  pose proof (runs_keep_states_well_formed pg0 with_stray
                [[KEYDOWN K_SPACE]; [KEYDOWN K_SPACE]; [QUIT]]) as H.
  destruct (Game.main_loop pg0 with_stray _); auto; apply H.
  all: unfold wf; simpl; repeat split; repeat constructor; intros [].
Defined.

Lemma check_collisions_keeps_alien g g' a :
  NoDup (map Alien.id (Game.alien_list g)) ->
  In a (Game.alien_list g) ->
  (forall b, In b (Game.bullet_list g) -> overlap b a = false) ->
  Game.check_collisions g = Done g' ->
  In a (Game.alien_list g').
Proof.
  intros ND Ha Hmiss H. unfold Game.check_collisions in H.
  apply (for_bullet_rule (fun s =>
    In a (Game.alien_list s) /\
    incl (Game.bullet_list s) (Game.bullet_list g) /\
    incl (Game.alien_list s) (Game.alien_list g))) in H.
  - tauto.
  - intros s0 bullet s alien bl al (_ & I0 & _) Hbullet (Hin & Ib & Ia)
      Halien C RB RA.
    simpl. repeat split.
    + eapply list_remove_keeps; eauto.
      unfold Alien.same. apply Nat.eqb_neq. intros E.
      assert (a = alien)
        by (eapply (NoDup_map_inj Alien.id); eauto).
      subst alien. unfold overlap in Hmiss.
      rewrite Hmiss in C; [discriminate|auto].
    + intros z Hz. apply Ib. eapply list_remove_incl; eauto.
    + intros z Hz. apply Ia. eapply list_remove_incl; eauto.
  - auto using incl_refl.
Qed.

(** X16: an alien leaves the list only by a collision.  In a well-formed
    state, an alien whose updated rectangle overlaps no updated bullet of
    the tick is still in the list when [update_logic] returns, moved by
    its own update and otherwise untouched. *)
Theorem alien_leaves_only_by_collision (g g' : Game.t)
  (event_list : list Event) (a : Alien.t) :
  wf g -> In a (Game.alien_list g) ->
  (forall b, In b (Game.bullet_list g) ->
     overlap (Bullet.update b event_list) (Alien.update a event_list)
       = false) ->
  Game.update_logic g event_list = Done g' ->
  In (Alien.update a event_list) (Game.alien_list g').
Proof.
  intros (Wa & _ & _) Ha Hmiss. rewrite update_logic_moved.
  apply check_collisions_keeps_alien; cbn [moved Game.alien_list
    Game.bullet_list].
  - rewrite map_map. erewrite map_ext; [exact Wa|].
    intros x. apply Alien_update_id.
  - now apply (in_map (fun alien => Alien.update alien event_list)).
  - intros b' Hb'. apply in_map_iff in Hb' as (b & <- & Hb). auto.
Qed.

Lemma alien_leaves_only_by_collision_witness :
  In (alien_at 0 105 100)
     match Game.update_logic with_stray [] with
     | Done g' => Game.alien_list g'
     | _ => []
     end.
Proof.
  destruct (Game.update_logic with_stray []) as [g'| |] eqn:E;
    try discriminate E.
  apply (alien_leaves_only_by_collision with_stray g' []
           (alien_at 0 100 100)).
  - unfold wf. simpl. repeat split; repeat constructor; intros [].
  - left. reflexivity.
  - intros b [<-|[]]. reflexivity.
  - exact E.
Defined.
